(** * xgen: type resolution, built-in type table and pipeline helpers

    A shallow embedding of [utils.go] of package [xgen], and the
    properties of its helpers: the built-in type table and its lookup, the
    one-hop base resolver, the namespace helpers, the reflective method
    dispatcher, and the file-system and network helpers.

    Go strings are byte sequences: they are embedded as [string], a
    sequence of [ascii] bytes.  Go maps are [gmap]s; reading a Go map at a
    missing key yields the zero value of the element type, which is
    written out at each such read.  A function that can stop with a
    run-time panic returns an [outcome]. *)

From Stdlib Require Import ZArith Ascii Strings.Byte.
From stdpp Require Import base option list strings gmap.

Local Open Scope string_scope.
Local Open Scope list_scope.

(** ** Go run-time values shared by the helpers *)

(** The [error] values the helpers can meet.  [ErrNotExist],
    [ErrPermission], [ErrNotDir], [ErrExist], [ErrInvalid] and
    [ErrNameTooLong] are what a failed system call of package [os]
    carries ([ENOENT], [EACCES], [ENOTDIR], [EEXIST], [EINVAL],
    [ENAMETOOLONG]), [SkipDir] and [SkipAll] are the sentinels of
    [path/filepath]; [ErrMsg] stands for every other error value. *)
Inductive error : Type :=
  | ErrNotExist
  | ErrPermission
  | ErrNotDir
  | ErrExist
  | ErrInvalid
  | ErrNameTooLong
  | SkipDir
  | SkipAll
  | ErrMsg (msg : string).

#[global] Instance error_eq_dec : EqDecision error.
Proof. solve_decision. Defined.

(** A call either returns or panics. *)
Inductive outcome (A : Type) : Type :=
  | Returns (a : A)
  | Panics.
Arguments Returns {A} a.
Arguments Panics {A}.

(** ** Package [strings]: the part the namespace helpers call *)
Module strings.

(** [strings.Split s sep] for a separator of one byte: the pieces of [s]
    between the occurrences of [sep], in order; a string without [sep]
    (the empty string too) gives the one piece [s]. *)
Fixpoint Split (s : string) (sep : ascii) : list string :=
  match s with
  | EmptyString => [EmptyString]
  | String c rest =>
      if Ascii.eqb c sep then EmptyString :: Split rest sep
      else match Split rest sep with
           | piece :: pieces => String c piece :: pieces
           | [] => [String c EmptyString]
           end
  end.

(** [strings.Count s sep] for a separator of one byte. *)
Fixpoint Count (s : string) (sep : ascii) : nat :=
  match s with
  | EmptyString => 0
  | String c rest =>
      if Ascii.eqb c sep then S (Count rest sep) else Count rest sep
  end.

(** [strings.Join]. *)
Fixpoint Join (elems : list string) (sep : string) : string :=
  match elems with
  | [] => EmptyString
  | [e] => e
  | e :: rest => e +:+ sep +:+ Join rest sep
  end.

(** A byte below [utf8.RuneSelf]. *)
Definition isASCII_byte (c : ascii) : bool := (N_of_ascii c <? 128)%N.

Fixpoint isASCII (s : string) : bool :=
  match s with
  | EmptyString => true
  | String c rest => isASCII_byte c && isASCII rest
  end.

(** The step of the ASCII loop of [ToUpper]: a byte from [a] to [z] loses
    ['a' - 'A'], every other byte stays. *)
Definition upper_byte (c : ascii) : ascii :=
  if ((97 <=? N_of_ascii c) && (N_of_ascii c <=? 122))%N
  then ascii_of_N (N_of_ascii c - 32)
  else c.

Fixpoint upper_bytes (s : string) : string :=
  match s with
  | EmptyString => EmptyString
  | String c rest => String (upper_byte c) (upper_bytes rest)
  end.

Section ToUpper.

(** [Map(unicode.ToUpper, s)], which [ToUpper] falls back on for a string
    with a byte outside ASCII. *)
Variable Map_unicode_ToUpper : string → string.

(** [strings.ToUpper]: a string of ASCII bytes is mapped byte by byte. *)
Definition ToUpper (s : string) : string :=
  if isASCII s then upper_bytes s else Map_unicode_ToUpper s.

End ToUpper.

End strings.

(** ** Package [bytes]: the part [MakeFirstUpperCase] calls.  A byte slice
    is embedded as a [string] too. *)
Module bytes.

Section ToUpper.

(** [Map(unicode.ToUpper, s)] of package [bytes]. *)
Variable Map_unicode_ToUpper : string → string.

(** [bytes.ToUpper]: like [strings.ToUpper], on a byte slice. *)
Definition ToUpper (s : string) : string :=
  if strings.isASCII s then strings.upper_bytes s else Map_unicode_ToUpper s.

End ToUpper.

(** [bytes.Join(s, nil)]: the slices one after the other. *)
Definition Join (s : list string) : string := foldr String.append EmptyString s.

End bytes.

(** ** BuiltinTypeTable *)

(** [BuildInTypes]: the map literal, entry for entry.  The spellings of an
    entry are in the order Go, TypeScript, C, Java, Rust. *)
Definition BuildInTypes : gmap string (list string) := list_to_map [
    ("anyType",             ["string"; "string"; "char"; "String"; "char"]);
    ("ENTITIES",            ["[]string"; "Array<string>"; "char[]"; "List<String>"; "Vec<char>"]);
    ("ENTITY",              ["string"; "string"; "char"; "String"; "char"]);
    ("ID",                  ["string"; "string"; "char"; "String"; "char"]);
    ("IDREF",               ["string"; "string"; "char"; "String"; "char"]);
    ("IDREFS",              ["[]string"; "Array<string>"; "char[]"; "List<String>"; "Vec<char>"]);
    ("NCName",              ["string"; "string"; "char"; "String"; "char"]);
    ("NMTOKEN",             ["string"; "string"; "char"; "String"; "char"]);
    ("NMTOKENS",            ["[]string"; "Array<string>"; "char[]"; "List<String>"; "Vec<char>"]);
    ("NOTATION",            ["[]string"; "Array<string>"; "char[]"; "List<String>"; "Vec<char>"]);
    ("Name",                ["string"; "string"; "char"; "String"; "char"]);
    ("QName",               ["xml.Name"; "any"; "char"; "String"; "char"]);
    ("anyURI",              ["string"; "string"; "char"; "QName"; "char"]);
    ("base64Binary",        ["[]byte"; "Array<any>"; "char[]"; "List<Byte>"; "Vec<u8>"]);
    ("boolean",             ["bool"; "boolean"; "bool"; "Boolean"; "bool"]);
    ("byte",                ["byte"; "any"; "char[]"; "Byte"; "&[u8]"]);
    ("date",                ["time.Time"; "string"; "char"; "Byte"; "&[u8]"]);
    ("dateTime",            ["time.Time"; "string"; "char"; "Byte"; "&[u8]"]);
    ("decimal",             ["float64"; "number"; "float"; "Float"; "f64"]);
    ("double",              ["float64"; "number"; "float"; "Float"; "f64"]);
    ("duration",            ["string"; "string"; "char"; "String"; "char"]);
    ("float",               ["float"; "number"; "float"; "Float"; "usize"]);
    ("gDay",                ["time.Time"; "string"; "char"; "String"; "char"]);
    ("gMonth",              ["time.Time"; "string"; "char"; "String"; "char"]);
    ("gMonthDay",           ["time.Time"; "string"; "char"; "String"; "char"]);
    ("gYear",               ["time.Time"; "string"; "char"; "String"; "char"]);
    ("gYearMonth",          ["time.Time"; "string"; "char"; "String"; "char"]);
    ("hexBinary",           ["[]byte"; "Array<any>"; "char[]"; "List<Byte>"; "Vec<u8>"]);
    ("int",                 ["int"; "number"; "int"; "Integer"; "isize"]);
    ("integer",             ["int"; "number"; "int"; "Integer"; "isize"]);
    ("language",            ["string"; "string"; "char"; "String"; "char"]);
    ("long",                ["int64"; "number"; "int"; "Long"; "i64"]);
    ("negativeInteger",     ["int"; "number"; "int"; "Integer"; "isize"]);
    ("nonNegativeInteger",  ["int"; "number"; "int"; "Integer"; "isize"]);
    ("normalizedString",    ["string"; "string"; "char"; "String"; "char"]);
    ("nonPositiveInteger",  ["int"; "number"; "int"; "Integer"; "isize"]);
    ("positiveInteger",     ["int"; "number"; "int"; "Integer"; "isize"]);
    ("short",               ["int16"; "number"; "int"; "Integer"; "i16"]);
    ("string",              ["string"; "string"; "char"; "String"; "char"]);
    ("time",                ["time.Time"; "string"; "char"; "String"; "char"]);
    ("token",               ["string"; "string"; "char"; "String"; "char"]);
    ("unsignedByte",        ["byte"; "any"; "char"; "Byte"; "&[u8]"]);
    ("unsignedInt",         ["uint32"; "number"; "unsigned int"; "Integer"; "u32"]);
    ("unsignedLong",        ["uint64"; "number"; "unsigned int"; "Long"; "u64"]);
    ("unsignedShort",       ["uint16"; "number"; "unsigned int"; "Short"; "u16"]);
    ("xml:lang",            ["string"; "string"; "char"; "String"; "char"]);
    ("xml:space",           ["string"; "string"; "char"; "String"; "char"]);
    ("xml:base",            ["string"; "string"; "char"; "String"; "char"]);
    ("xml:id",              ["string"; "string"; "char"; "String"; "char"])
  ].

(** [supportLang], the map local to [getBuildInTypeByLang]. *)
Definition supportLang : gmap string nat := list_to_map [
    ("Go",         0);
    ("TypeScript", 1);
    ("C",          2);
    ("Java",       3);
    ("Rust",       4)
  ].

(** [getBuildInTypeByLang].  [BuildInTypes[value]] is read with the
    comma-ok form, so a missing key returns the zero results.
    [supportLang[lang]] is read without it: a missing language reads as the
    zero value [0].  Indexing the slice beyond its length panics. *)
Definition getBuildInTypeByLang (value lang : string) : outcome (string * bool) :=
  match BuildInTypes !! value with
  | None => Returns ("", false)
  | Some buildInTypes =>
      match buildInTypes !! default 0 (supportLang !! lang) with
      | Some buildType => Returns (buildType, true)
      | None => Panics
      end
  end.

(** ** TypeResolver *)

(** The declarations the resolver looks into, with the fields it reads.
    [Type_] is the field [Type] of the Go structs. *)
Module SimpleType.
Record t : Type := mk { Name : string; Base : string; List : bool; Union : bool }.
End SimpleType.

Module Attribute.
Record t : Type := mk { Name : string; Type_ : string }.
End Attribute.

Module Element.
Record t : Type := mk { Name : string; Type_ : string }.
End Element.

(** An element of [XSDSchema []interface{}]: the dynamic types the type
    switch tells apart, and [Other] for every value of another dynamic
    type (a [*ComplexType], a [*Group], ...).  The pointers stored by the
    parser are not nil. *)
Inductive Declaration : Type :=
  | PSimpleType (v : SimpleType.t)
  | PAttribute (v : Attribute.t)
  | PElement (v : Element.t)
  | Other.

(** [getBasefromSimpleType]: one pass over [XSDSchema]; the first case of
    the type switch whose condition holds returns. *)
Fixpoint getBasefromSimpleType (name : string) (XSDSchema : list Declaration) : string :=
  match XSDSchema with
  | [] => name
  | ele :: rest =>
      match ele with
      | PSimpleType v =>
          if negb (SimpleType.List v) && negb (SimpleType.Union v)
             && bool_decide (SimpleType.Name v = name)
          then SimpleType.Base v
          else getBasefromSimpleType name rest
      | PAttribute v =>
          if bool_decide (Attribute.Name v = name) then Attribute.Type_ v
          else getBasefromSimpleType name rest
      | PElement v =>
          if bool_decide (Element.Name v = name) then Element.Type_ v
          else getBasefromSimpleType name rest
      | Other => getBasefromSimpleType name rest
      end
  end.

(** ** NamespaceHelper *)

(** [getNSPrefix]: the named result [ns] starts as the empty string and is
    assigned [split[0]] only when [len(split) == 2]. *)
Definition getNSPrefix (str : string) : string :=
  let split := strings.Split str ":" in
  match split with
  | [ns; _] => ns
  | _ => ""
  end.

(** [trimNSPrefix]: [split[1]] when [len(split) == 2], else [str]. *)
Definition trimNSPrefix (str : string) : string :=
  let split := strings.Split str ":" in
  match split with
  | [_; name] => name
  | _ => str
  end.

(** ** Capitalising a name *)

Section MakeFirstUpperCase.

(** The two library functions that map a text with bytes outside ASCII. *)
Variable strings_Map_ToUpper : string → string.
Variable bytes_Map_ToUpper : string → string.

(** [MakeFirstUpperCase]: a string shorter than two bytes goes through
    [strings.ToUpper]; of a longer one, the byte [bts[0]] alone goes
    through [bytes.ToUpper] and [bts[1:]] is appended as it is. *)
Definition MakeFirstUpperCase (s : string) : string :=
  if bool_decide (String.length s < 2) then strings.ToUpper strings_Map_ToUpper s
  else
    match s with
    | String bts0 rest =>
        let lc := bytes.ToUpper bytes_Map_ToUpper (String bts0 EmptyString) in
        bytes.Join [lc; rest]
    | EmptyString => EmptyString
    end.

End MakeFirstUpperCase.

(** ** GeneratorDispatcher *)

(** What [reflect] lets [callFuncByName] see of a result of the called
    method: a nil of a kind that has one (a nil [error] among them), a
    non-nil value that implements [error], a non-nil value of such a kind
    that does not, and a value of a kind without nil (an [int], a struct),
    on which [IsNil] panics. *)
Inductive Value : Type :=
  | NilValue
  | ErrorValue (e : error)
  | NonError
  | NotNilable.

Section Dispatcher.

(** The type of the entries of [params]. *)
Variable param : Type.

(** A method, as [Call] runs it: it returns its results, or the call
    panics (the parameters do not fit the signature, or the body
    panics). *)
Definition Method : Type := list param → outcome (list Value).

(** The method set of a value: [MethodByName], which yields an invalid
    [Value] (here [None]) for a name without a method. *)
Definition MethodSet : Type := string → option Method.

(** The [receiver interface{}]: the nil interface, or a value with its
    method set.  On the nil interface [reflect.ValueOf] gives the zero
    [Value], on which [MethodByName] panics. *)
Inductive Receiver : Type :=
  | nil_interface
  | non_nil (methods : MethodSet).

(** [callFuncByName].  The named result [err] is nil ([None]) until it is
    assigned. *)
Definition callFuncByName (receiver : Receiver) (name : string)
    (params : list param) : outcome (option error) :=
  match receiver with
  | nil_interface => Panics
  | non_nil methods =>
      match methods name with
      | Some function =>
          match function params with
          | Panics => Panics
          | Returns rt =>
              match rt with
              | [] => Returns None
              | rt0 :: _ =>
                  match rt0 with
                  | NilValue => Returns None
                  | ErrorValue e => Returns (Some e)
                  | NonError => Panics
                  | NotNilable => Panics
                  end
              end
          end
      | None => Returns None
      end
  end.

End Dispatcher.

Arguments nil_interface {param}.
Arguments non_nil {param} methods.
Arguments callFuncByName {param} receiver name params.

(** ** SchemaSource: the file system *)

(** A file tree, rooted at the root directory.  A directory carries its
    permission bits and its entries, in any order and under distinct
    names; a name is not empty, is neither [.] nor [..], and holds no
    slash.

    The tree is seen as Linux shows it to a process that owns every file
    and is not the superuser (the owner's permission bits decide), whose
    working directory is the root directory (a relative path and the same
    path with a slash in front name the same file), and whose umask is
    [022].  There are no symbolic links, so [Stat] and [Lstat] agree. *)
#[warnings="-register-all"] Inductive node : Type :=
  | File
  | Dir (mode : Z) (entries : list (string * node)).

Module os.

Record FileInfo : Type := { IsDir : bool }.

Definition info (n : node) : FileInfo :=
  match n with
  | File => {| IsDir := false |}
  | Dir _ _ => {| IsDir := true |}
  end.

(** The owner's bits: [0400] to list the names of a directory, [0200] to
    add a name to it, [0100] to look a name up in it. *)
Definition readable (mode : Z) : bool := Z.testbit mode 8.
Definition writable (mode : Z) : bool := Z.testbit mode 7.
Definition searchable (mode : Z) : bool := Z.testbit mode 6.

(** The umask [022], in hexadecimal. *)
Definition umask : Z := 0x12.

(** The longest name and the length no path reaches. *)
Definition NAME_MAX : nat := 255.
Definition PATH_MAX : nat := 4096.

Fixpoint find_entry (name : string) (entries : list (string * node)) : option node :=
  match entries with
  | [] => None
  | (n, child) :: rest =>
      if bool_decide (n = name) then Some child else find_entry name rest
  end.

(** The node under a sequence of names, from a node down. *)
Fixpoint lookup_at (n : node) (here : list string) : option node :=
  match here with
  | [] => Some n
  | name :: names =>
      match n with
      | Dir _ entries =>
          match find_entry name entries with
          | Some child => lookup_at child names
          | None => None
          end
      | File => None
      end
  end.

(** The elements of a path: what stands between its slashes, without the
    empty pieces that a slash in front, at the end or after another slash
    leaves. *)
Definition components (path : string) : list string :=
  filter (λ c, c ≠ "") (strings.Split path "/").

(** Whether a path that is not empty ends with a slash. *)
Definition trailing_slash (path : string) : bool :=
  match last (strings.Split path "/") with
  | Some EmptyString => true
  | _ => false
  end.

(** What stops a system call before any look-up: a NUL byte in the path,
    the empty path, a path too long. *)
Definition refused (path : string) : option error :=
  if bool_decide (0 < strings.Count path Ascii.zero)%nat then Some ErrInvalid
  else if bool_decide (path = "") then Some ErrNotExist
  else if bool_decide (PATH_MAX ≤ String.length path)%nat then Some ErrNameTooLong
  else None.

(** Path resolution, element by element, from the directory that the
    names [here] lead to from the root: every element is looked up in a
    directory, which needs the search bit; [.] stays, [..] goes one
    directory up and stays at the root.  The result is the sequence of
    names that leads from the root to where the elements lead. *)
Fixpoint locate (fs : node) (here : list string) (comps : list string)
    : list string + error :=
  match comps with
  | [] => inl here
  | c :: cs =>
      match lookup_at fs here with
      | Some (Dir mode entries) =>
          if negb (searchable mode) then inr ErrPermission
          else if bool_decide (c = ".") then locate fs here cs
          else if bool_decide (c = "..") then locate fs (removelast here) cs
          else if bool_decide (NAME_MAX < String.length c)%nat then inr ErrNameTooLong
          else match find_entry c entries with
               | Some _ => locate fs (here ++ [c]) cs
               | None => inr ErrNotExist
               end
      | Some File => inr ErrNotDir
      | None => inr ErrNotExist
      end
  end.

(** The node a path names; a path that ends with a slash names a
    directory or nothing. *)
Definition lookup (fs : node) (path : string) : node + error :=
  match refused path with
  | Some err => inr err
  | None =>
      match locate fs [] (components path) with
      | inr err => inr err
      | inl here =>
          match lookup_at fs here with
          | Some n =>
              if trailing_slash path && negb (IsDir (info n)) then inr ErrNotDir
              else inl n
          | None => inr ErrNotExist
          end
      end
  end.

(** [os.Stat]: the file information, or the cause of the failure. *)
Definition Stat (fs : node) (path : string) : FileInfo + error :=
  match lookup fs path with
  | inl n => inl (info n)
  | inr err => inr err
  end.

(** [os.Lstat]. *)
Definition Lstat (fs : node) (path : string) : FileInfo + error := Stat fs path.

(** [os.IsNotExist]. *)
Definition IsNotExist (err : error) : bool :=
  match err with
  | ErrNotExist => true
  | _ => false
  end.

(** The tree with one more entry in the directory under the names
    [here]. *)
Fixpoint insert_at (n : node) (here : list string) (entry : string * node) : node :=
  match n with
  | File => File
  | Dir mode entries =>
      match here with
      | [] => Dir mode (entries ++ [entry])
      | name :: names =>
          Dir mode (map (λ e, if bool_decide (e.1 = name)
                              then (e.1, insert_at e.2 names entry) else e) entries)
      end
  end.

(** [os.Mkdir]: a new, empty directory under the last element of the
    path, in the directory the elements before it lead to.  That
    directory needs the search bit for the look-up of the name and the
    write bit for the new entry; a name that exists, [.] and [..], and a
    path of slashes only, fail with [ErrExist]. *)
Definition Mkdir (fs : node) (path : string) (perm : Z) : node * option error :=
  match refused path with
  | Some err => (fs, Some err)
  | None =>
      match reverse (components path) with
      | [] => (fs, Some ErrExist)
      | c :: before =>
          match locate fs [] (reverse before) with
          | inr err => (fs, Some err)
          | inl here =>
              match lookup_at fs here with
              | Some (Dir mode entries) =>
                  if negb (searchable mode) then (fs, Some ErrPermission)
                  else if bool_decide (c = "." ∨ c = "..") then (fs, Some ErrExist)
                  else if bool_decide (NAME_MAX < String.length c)%nat
                  then (fs, Some ErrNameTooLong)
                  else
                    match find_entry c entries with
                    | Some _ => (fs, Some ErrExist)
                    | None =>
                        if negb (writable mode) then (fs, Some ErrPermission)
                        else (insert_at fs here (c, Dir (Z.ldiff perm umask) []), None)
                    end
              | Some File => (fs, Some ErrNotDir)
              | None => (fs, Some ErrNotExist)
              end
          end
      end
  end.

(** The parent that [MkdirAll] extracts: the path without the slashes at
    its end and without the element before them ([path[:i+1]]). *)
Fixpoint drop_slashes (backwards : list ascii) : list ascii :=
  match backwards with
  | c :: rest => if Ascii.eqb c "/" then drop_slashes rest else backwards
  | [] => []
  end.

Fixpoint drop_element (backwards : list ascii) : list ascii :=
  match backwards with
  | c :: rest => if Ascii.eqb c "/" then backwards else drop_element rest
  | [] => []
  end.

Definition parent (path : string) : string :=
  String.string_of_list_ascii
    (reverse (drop_element (drop_slashes (reverse (String.list_ascii_of_string path))))).

(** [os.MkdirAll], statement by statement: the fast path on what [Stat]
    says, the call on the parent when there is one, [Mkdir], and the
    second look when [Mkdir] fails.  The call on the parent is on a
    shorter path; [fuel] counts these calls down and never runs out when
    it starts at the length of the path. *)
Fixpoint mkdirAll (fuel : nat) (fs : node) (path : string) (perm : Z)
    : node * option error :=
  match Stat fs path with
  | inl dir => if IsDir dir then (fs, None) else (fs, Some ErrNotDir)
  | inr _ =>
      let '(fs1, err) :=
        if bool_decide (parent path = "") then (fs, None)
        else match fuel with
             | 0 => (fs, Some (ErrMsg "out of fuel"))
             | S fuel => mkdirAll fuel fs (parent path) perm
             end in
      match err with
      | Some err => (fs1, Some err)
      | None =>
          match Mkdir fs1 path perm with
          | (fs2, None) => (fs2, None)
          | (_, Some err) =>
              match Lstat fs1 path with
              | inl dir => if IsDir dir then (fs1, None) else (fs1, Some err)
              | inr _ => (fs1, Some err)
              end
          end
      end
  end.

(** [os.MkdirAll]: the tree afterwards, and the error. *)
Definition MkdirAll (fs : node) (path : string) (perm : Z) : node * option error :=
  mkdirAll (String.length path) fs path perm.

End os.

Module filepath.

(** One element of a path in [Clean], on the elements kept so far, the
    last one first: an empty element and [.] are dropped; [..] takes the
    element before it away, is dropped at the root of a rooted path, and
    is kept where a path that is not rooted has nothing to take away. *)
Definition clean_step (rooted : bool) (kept : list string) (elem : string) : list string :=
  if bool_decide (elem = "" ∨ elem = ".") then kept
  else if bool_decide (elem = "..") then
    match kept with
    | top :: below => if bool_decide (top = "..") then elem :: kept else below
    | [] => if rooted then [] else [elem]
    end
  else elem :: kept.

(** [filepath.Clean]. *)
Definition Clean (path : string) : string :=
  match path with
  | EmptyString => "."
  | String c _ =>
      let rooted := Ascii.eqb c "/" in
      let out :=
        strings.Join (reverse (foldl (clean_step rooted) [] (strings.Split path "/"))) "/" in
      if rooted then "/" +:+ out
      else if bool_decide (out = "") then "." else out
  end.

(** [filepath.Join]: the elements from the first that is not empty on,
    joined with slashes and cleaned. *)
Fixpoint Join (elem : list string) : string :=
  match elem with
  | [] => EmptyString
  | e :: rest =>
      if bool_decide (e = "") then Join rest else Clean (strings.Join elem "/")
  end.

(** The order of [readDirNames]: by name, byte for byte. *)
Fixpoint insert_by_name {A : Type} (e : string * A) (sorted : list (string * A))
    : list (string * A) :=
  match sorted with
  | [] => [e]
  | e' :: rest =>
      if String.leb e.1 e'.1 then e :: sorted else e' :: insert_by_name e rest
  end.

Definition by_name {A : Type} (entries : list (string * A)) : list (string * A) :=
  foldr insert_by_name [] entries.

Section Walk.

(** What the closure passed as [WalkFunc] captures and updates. *)
Variable St : Type.

Definition WalkFunc : Type :=
  string → option os.FileInfo → option error → St → St * option error.

Variable fn : WalkFunc.

(** The loop of [walk] over the names of a directory.  A name comes with
    whether its entry is a directory and with the walk of that entry.
    [lstat] of an entry needs the search bit of the directory: without
    it the entry goes to [fn] with the error, and is not walked.  An
    error stops the loop, but [SkipDir] only skips the entry. *)
Fixpoint walk_names (path : string) (can_lstat : bool)
    (names : list (string * (bool * (St → St * option error)))) (st : St)
    : St * option error :=
  match names with
  | [] => (st, None)
  | (name, (is_dir, walk_entry)) :: rest =>
      if can_lstat then
        match walk_entry st with
        | (st', Some err) =>
            if negb is_dir || negb (bool_decide (err = SkipDir))
            then (st', Some err)
            else walk_names path can_lstat rest st'
        | (st', None) => walk_names path can_lstat rest st'
        end
      else
        match fn (Join [path; name]) None (Some ErrPermission) st with
        | (st', Some err) =>
            if negb (bool_decide (err = SkipDir)) then (st', Some err)
            else walk_names path can_lstat rest st'
        | (st', None) => walk_names path can_lstat rest st'
        end
  end.

(** [walk]: a file goes to [fn]; of a directory the names are read first,
    which needs the read bit, then the directory goes to [fn], with the
    error of the reading if there is one; when the reading or [fn] gave
    an error the directory is left with what [fn] returned, else its
    entries are walked in the order of their names. *)
Fixpoint walk (path : string) (n : node) (st : St) : St * option error :=
  match n with
  | File => fn path (Some (os.info n)) None st
  | Dir mode entries =>
      let err := if os.readable mode then None else Some ErrPermission in
      let '(st1, err1) := fn path (Some (os.info n)) err st in
      match err, err1 with
      | None, None =>
          walk_names path (os.searchable mode)
            (by_name (map (λ '(name, child),
                             (name, (os.IsDir (os.info child),
                                     walk (Join [path; name]) child))) entries))
            st1
      | _, _ => (st1, err1)
      end
  end.

(** [filepath.Walk]: [fn] is called for the root too, with the root as it
    was given. *)
Definition Walk (fs : node) (root : string) (st : St) : St * option error :=
  let '(st', err) :=
    match os.lookup fs root with
    | inr err => fn root None (Some err) st
    | inl n => walk root n st
    end in
  match err with
  | Some SkipDir | Some SkipAll => (st', None)
  | _ => (st', err)
  end.

End Walk.

Arguments Walk {St} fn fs root st.
Arguments walk {St} fn path n st.
Arguments walk_names {St} fn path can_lstat names st.

End filepath.

(** [GetFileList].  The named results start as [files = nil] and
    [err = nil]; the closure appends to the captured [files]. *)
Definition GetFileList (fs : node) (path : string) : list string * option error :=
  match os.Stat fs path with
  | inr err => ([], Some err)
  | inl fi =>
      if os.IsDir fi then
        match filepath.Walk (λ fp _ _ files, (files ++ [fp], None)) fs path [] with
        | (files, Some err) => (files, Some err)
        | (files, None) => (files ++ [path], None)
        end
      else ([path], None)
  end.

(** The permission bits [0755], in hexadecimal. *)
Definition perm_0755 : Z := 0x1ed.

(** [PrepareOutputDir]: the tree afterwards and the returned error. *)
Definition PrepareOutputDir (fs : node) (path : string) : node * option error :=
  if bool_decide (path = "") then (fs, None)
  else
    match os.Stat fs path with
    | inr err =>
        if os.IsNotExist err then
          match os.MkdirAll fs path perm_0755 with
          | (fs', Some err) => (fs', Some err)
          | (fs', None) => (fs', None)
          end
        else (fs, None)
    | inl _ => (fs, None)
    end.

(** ** SchemaSource: the network *)

Module http.

Definition StatusOK : Z := 200.

(** A response: its status and its body, the latter as what
    [ioutil.ReadAll] makes of it (the bytes read, and the error that
    ended the reading if one did). *)
Record Response : Type := { StatusCode : Z; Body : list byte * option error }.

(** What the client does on the wire and on the body. *)
Inductive event : Type :=
  | Get (URL : string)
  | ReadAll
  | Close.

Definition is_Get (ev : event) : bool :=
  match ev with
  | Get _ => true
  | _ => false
  end.

End http.

Section Fetch.

(** [client.Get]: the response of the server, or the failure of the
    exchange. *)
Variable client_Get : string → http.Response + error.

(** [fetchSchema]: the two results, and the events in order.  The
    deferred [Close] runs when the function returns. *)
Definition fetchSchema (URL : string) : (list byte * option error) * list http.event :=
  match client_Get URL with
  | inr err => (([], Some err), [http.Get URL])
  | inl resp =>
      if bool_decide (http.StatusCode resp = http.StatusOK) then
        match http.Body resp with
        | (body, Some err) => ((body, Some err), [http.Get URL; http.ReadAll; http.Close])
        | (body, None) => ((body, None), [http.Get URL; http.ReadAll; http.Close])
        end
      else (([], None), [http.Get URL; http.Close])
  end.

End Fetch.

(** ** Reading the specification *)

(** The languages the table has a spelling for. *)
Definition languages : list string := ["Go"; "TypeScript"; "C"; "Java"; "Rust"].

(** What C5 needs of an entry of the table: five spellings, none of them
    empty. *)
Definition entry_ok (buildInTypes : list string) : Prop :=
  length buildInTypes = 5 ∧ Forall (λ buildType, buildType ≠ "") buildInTypes.

#[global] Instance entry_ok_dec buildInTypes : Decision (entry_ok buildInTypes).
Proof. unfold entry_ok. apply _. Defined.

(** A closed decidable statement, settled by evaluation. *)
Ltac by_evaluation := refine (bool_decide_unpack _ _); vm_compute; exact I.

(** When a declaration answers for [name], and with which base: a
    [SimpleType] that is neither a list nor a union, an [Attribute] or an
    [Element], of that name. *)
Inductive resolves (name : string) : Declaration → string → Prop :=
  | resolves_SimpleType v :
      SimpleType.List v = false → SimpleType.Union v = false →
      SimpleType.Name v = name →
      resolves name (PSimpleType v) (SimpleType.Base v)
  | resolves_Attribute v :
      Attribute.Name v = name → resolves name (PAttribute v) (Attribute.Type_ v)
  | resolves_Element v :
      Element.Name v = name → resolves name (PElement v) (Element.Type_ v).

Definition unmatched (name : string) (ele : Declaration) : Prop :=
  ∀ base, ¬ resolves name ele base.

(** The resolution in two passes, as the specification words it: the
    first fitting [SimpleType] anywhere in the list, and only without one
    the first [Attribute] or [Element] of that name. *)
Fixpoint first_SimpleType (name : string) (declarations : list Declaration) : option string :=
  match declarations with
  | [] => None
  | PSimpleType v :: rest =>
      if negb (SimpleType.List v) && negb (SimpleType.Union v)
         && bool_decide (SimpleType.Name v = name)
      then Some (SimpleType.Base v)
      else first_SimpleType name rest
  | _ :: rest => first_SimpleType name rest
  end.

Fixpoint first_Attribute_or_Element (name : string) (declarations : list Declaration)
    : option string :=
  match declarations with
  | [] => None
  | PAttribute v :: rest =>
      if bool_decide (Attribute.Name v = name) then Some (Attribute.Type_ v)
      else first_Attribute_or_Element name rest
  | PElement v :: rest =>
      if bool_decide (Element.Name v = name) then Some (Element.Type_ v)
      else first_Attribute_or_Element name rest
  | _ :: rest => first_Attribute_or_Element name rest
  end.

Definition ResolveBase_two_pass (name : string) (declarations : list Declaration) : string :=
  match first_SimpleType name declarations with
  | Some base => base
  | None => default name (first_Attribute_or_Element name declarations)
  end.

(** The entries a walk visits, in traversal order: the entry itself, then,
    for a directory whose names can be read, its entries in the order of
    their names: each followed by its own subtree when the directory can
    be searched, and by nothing when it cannot. *)
Fixpoint visited (path : string) (n : node) : list string :=
  path ::
  match n with
  | File => []
  | Dir mode entries =>
      if os.readable mode then
        concat (map snd (filepath.by_name (map (λ '(name, child),
          (name, if os.searchable mode
                 then visited (filepath.Join [path; name]) child
                 else [filepath.Join [path; name]])) entries)))
      else []
  end.

(** The paths at or below an entry: the entry itself; through a directory
    with the read and the search bit, what is at or below one of its
    entries; through a directory with the read bit only, its entries
    themselves. *)
Inductive below : string → node → string → Prop :=
  | below_self path n : below path n path
  | below_entry path mode entries name child p :
      os.readable mode = true →
      os.searchable mode = true →
      (name, child) ∈ entries →
      below (filepath.Join [path; name]) child p →
      below path (Dir mode entries) p
  | below_name path mode entries name child :
      os.readable mode = true →
      os.searchable mode = false →
      (name, child) ∈ entries →
      below path (Dir mode entries) (filepath.Join [path; name]).

(** A declaration that carries [name], whatever its kind and flags. *)
Definition named (name : string) (ele : Declaration) : Prop :=
  match ele with
  | PSimpleType v => SimpleType.Name v = name
  | PAttribute v => Attribute.Name v = name
  | PElement v => Element.Name v = name
  | Other => False
  end.

#[global] Instance named_dec name ele : Decision (named name ele).
Proof. destruct ele; simpl; apply _. Defined.

(** A string that is empty or starts with an ASCII byte. *)
Definition starts_ASCII (s : string) : Prop :=
  match s with
  | EmptyString => True
  | String c _ => strings.isASCII_byte c = true
  end.

(** Induction on a file tree, with the hypothesis for every entry of a
    directory. *)
Fixpoint node_tree_ind (P : node → Prop) (HFile : P File)
    (HDir : ∀ mode entries, Forall (λ entry, P entry.2) entries → P (Dir mode entries))
    (n : node) : P n :=
  match n with
  | File => HFile
  | Dir mode entries =>
      HDir mode entries
        ((fix each (entries : list (string * node)) : Forall (λ entry, P entry.2) entries :=
            match entries with
            | [] => @List.Forall_nil _ _
            | (name, child) :: rest =>
                @List.Forall_cons _ (λ entry, P entry.2) (name, child) rest
                  (node_tree_ind P HFile HDir child) (each rest)
            end) entries)
  end.

(** ** Sample inputs *)

Definition schema_Foo : list Declaration :=
  [ PAttribute {| Attribute.Name := "Foo"; Attribute.Type_ := "int" |};
    PSimpleType {| SimpleType.Name := "Foo"; SimpleType.Base := "string";
                   SimpleType.List := false; SimpleType.Union := false |} ].

(** A directory [d] with the files [A] and [B], a file [f], and a
    directory [locked] without any permission bit. *)
Definition fs_AB : node :=
  Dir perm_0755
    [ ("d", Dir perm_0755 [("A", File); ("B", File)]);
      ("f", File);
      ("locked", Dir 0 [("x", File)]) ].

(** A tree whose directories list their entries against the order of the
    names: [list] has the read bit only, [pass] the search bit only, and
    [fixed] lacks the write bit. *)
Definition fs_modes : node :=
  Dir perm_0755
    [ ("pass", Dir 0x40 [("k", File)]);
      ("list", Dir 0x100 [("k", Dir perm_0755 [("deep", File)]); ("j", File)]);
      ("fixed", Dir 0x16d [("sub", Dir perm_0755 [])]);
      ("d", Dir perm_0755 [("B", File); ("A", Dir perm_0755 [("z", File)])]) ].

(** The declarations of two schema files, the second with an attribute
    under the name of a simple type of the first. *)
Definition schema_types : list Declaration :=
  [ Other;
    PSimpleType {| SimpleType.Name := "Ids"; SimpleType.Base := "IDREFS";
                   SimpleType.List := true; SimpleType.Union := false |};
    PSimpleType {| SimpleType.Name := "Code"; SimpleType.Base := "token";
                   SimpleType.List := false; SimpleType.Union := false |} ].

Definition schema_attrs : list Declaration :=
  [ PAttribute {| Attribute.Name := "Code"; Attribute.Type_ := "string" |};
    PElement {| Element.Name := "Ids"; Element.Type_ := "Code" |} ].

(** A generator with a method without result, one that reports an error,
    and one that reports none. *)
Definition generator_methods : MethodSet nat := λ name,
  if bool_decide (name = "Element") then Some (λ _, Returns [])
  else if bool_decide (name = "Group") then Some (λ _, Returns [ErrorValue (ErrMsg "group")])
  else if bool_decide (name = "Attribute") then Some (λ _, Returns [NilValue])
  else None.

Definition generator : Receiver nat := non_nil generator_methods.

(** A server that answers [/ok] with a body, [/missing] with status 404,
    and cannot be reached otherwise. *)
Definition server (URL : string) : http.Response + error :=
  if bool_decide (URL = "http://host/ok")
  then inl {| http.StatusCode := 200; http.Body := (["x"%byte; "s"%byte; "d"%byte], None) |}
  else if bool_decide (URL = "http://host/missing")
  then inl {| http.StatusCode := 404; http.Body := (["n"%byte; "o"%byte], None) |}
  else inr (ErrMsg "dial tcp: no such host").

(** * Properties *)

(** ** Namespace helpers *)

Section SplitLemmas.

Variable sep : ascii.

Lemma Split_length (s : string) :
  length (strings.Split s sep) = S (strings.Count s sep).
Proof.
  induction s as [|c s IH]; simpl; [done|].
  destruct (Ascii.eqb c sep); simpl; [by rewrite IH|].
  destruct (strings.Split s sep); simpl in *; lia.
Qed.

Lemma Split_no_sep (s : string) :
  strings.Count s sep = 0 → strings.Split s sep = [s].
Proof.
  induction s as [|c s IH]; simpl; [done|].
  destruct (Ascii.eqb c sep); [done|].
  intros H. by rewrite (IH H).
Qed.

Lemma Split_cut (p n : string) :
  strings.Count p sep = 0 →
  strings.Split (p +:+ String sep n) sep = p :: strings.Split n sep.
Proof.
  induction p as [|c p IH]; simpl.
  - intros _. by rewrite Ascii.eqb_refl.
  - destruct (Ascii.eqb c sep); [done|].
    intros H. by rewrite (IH H).
Qed.

Lemma Count_app (p n : string) :
  strings.Count (p +:+ n) sep = strings.Count p sep + strings.Count n sep.
Proof.
  induction p as [|c p IH]; simpl; [done|].
  destruct (Ascii.eqb c sep); simpl; by rewrite IH.
Qed.

Lemma Count_cut (s : string) :
  0 < strings.Count s sep →
  ∃ p n, s = p +:+ String sep n ∧ strings.Count p sep = 0.
Proof.
  induction s as [|c s IH]; simpl; [lia|].
  destruct (Ascii.eqb_spec c sep) as [->|Hne].
  - intros _. by exists "", s.
  - intros H. destruct (IH H) as (p & n & -> & Hp).
    exists (String c p), n. split; [done|]. simpl.
    destruct (Ascii.eqb_spec c sep); [done|done].
Qed.

End SplitLemmas.

(** With exactly one colon the two helpers return the two sides of it. *)
Lemma ns_one_colon (prefix name : string) :
  strings.Count (prefix +:+ ":" +:+ name) ":" = 1 →
  getNSPrefix (prefix +:+ ":" +:+ name) = prefix ∧
  trimNSPrefix (prefix +:+ ":" +:+ name) = name.
Proof.
  change (":" +:+ name) with (String ":" name).
  intros H. rewrite Count_app in H. simpl in H.
  unfold getNSPrefix, trimNSPrefix.
  rewrite Split_cut by lia. rewrite Split_no_sep by lia. done.
Qed.

Lemma ns_one_colon_cut (str : string) :
  strings.Count str ":" = 1 → ∃ prefix name, str = prefix +:+ ":" +:+ name.
Proof.
  intros H. destruct (Count_cut ":" str) as (p & n & -> & _); [lia|].
  by exists p, n.
Qed.

Lemma ns_not_one_colon (str : string) :
  strings.Count str ":" ≠ 1 → getNSPrefix str = "" ∧ trimNSPrefix str = str.
Proof.
  intros H. unfold getNSPrefix, trimNSPrefix.
  pose proof (Split_length ":" str) as Hlen.
  destruct (strings.Split str ":") as [|a [|b [|c l]]]; simpl in *; try done.
  lia.
Qed.

(** C7: with exactly one colon in [str], [str] is a prefix, the colon and a
    name, [getNSPrefix] returns that prefix (the substring before the
    colon) and [trimNSPrefix] that name (the substring after it); with no
    colon, or with two or more, [getNSPrefix] returns the empty string and
    [trimNSPrefix] returns [str] unchanged. *)
Theorem getNSPrefix_trimNSPrefix_one_colon (str : string) :
  (strings.Count str ":" = 1 →
     (∃ prefix name, str = prefix +:+ ":" +:+ name) ∧
     ∀ prefix name, str = prefix +:+ ":" +:+ name →
       getNSPrefix str = prefix ∧ trimNSPrefix str = name) ∧
  (strings.Count str ":" ≠ 1 →
     getNSPrefix str = "" ∧ trimNSPrefix str = str).
Proof.
  split.
  - intros H. split; [by apply ns_one_colon_cut|].
    intros prefix name ->. by apply ns_one_colon.
  - apply ns_not_one_colon.
Qed.

Lemma getNSPrefix_trimNSPrefix_one_colon_witness :
  (strings.Count "ns:Elem" ":" = 1 ∧
   getNSPrefix "ns:Elem" = "ns" ∧ trimNSPrefix "ns:Elem" = "Elem") ∧
  (strings.Count "a:b:c" ":" ≠ 1 ∧
   getNSPrefix "a:b:c" = "" ∧ trimNSPrefix "a:b:c" = "a:b:c") ∧
  (strings.Count "Elem" ":" ≠ 1 ∧
   getNSPrefix "Elem" = "" ∧ trimNSPrefix "Elem" = "Elem").
Proof.
  split; [|split].
  - split; [reflexivity|].
    exact (proj2 (proj1 (getNSPrefix_trimNSPrefix_one_colon "ns:Elem") eq_refl)
             "ns" "Elem" eq_refl).
  - assert (strings.Count "a:b:c" ":" ≠ 1) as H by (simpl; lia).
    split; [exact H|].
    exact (proj2 (getNSPrefix_trimNSPrefix_one_colon "a:b:c") H).
  - assert (strings.Count "Elem" ":" ≠ 1) as H by (simpl; lia).
    split; [exact H|].
    exact (proj2 (getNSPrefix_trimNSPrefix_one_colon "Elem") H).
Defined.

(** C10: for a string with exactly one colon, the prefix, a colon and the
    local name put together give the string back. *)
Theorem getNSPrefix_trimNSPrefix_join (s : string) :
  strings.Count s ":" = 1 →
  getNSPrefix s +:+ ":" +:+ trimNSPrefix s = s.
Proof.
  intros H. destruct (ns_one_colon_cut s H) as (prefix & name & ->).
  by destruct (ns_one_colon prefix name H) as [-> ->].
Qed.

Lemma getNSPrefix_trimNSPrefix_join_witness :
  strings.Count "xml:lang" ":" = 1 ∧
  getNSPrefix "xml:lang" +:+ ":" +:+ trimNSPrefix "xml:lang" = "xml:lang".
Proof.
  split; [reflexivity|].
  apply (getNSPrefix_trimNSPrefix_join "xml:lang"). reflexivity.
Defined.

(** ** The built-in type table *)

Lemma BuildInTypes_entries_ok : map_Forall (λ _, entry_ok) BuildInTypes.
Proof. by_evaluation. Qed.

Lemma BuildInTypes_index (value : string) (buildInTypes : list string) (i : nat) :
  BuildInTypes !! value = Some buildInTypes → i < 5 →
  ∃ buildType, buildInTypes !! i = Some buildType ∧ buildType ≠ "".
Proof.
  intros Hv Hi.
  destruct (BuildInTypes_entries_ok value buildInTypes Hv) as [Hlen Hne].
  destruct (lookup_lt_is_Some_2 buildInTypes i) as [buildType Ht]; [lia|].
  exists buildType. split; [done|].
  rewrite Forall_forall in Hne. apply Hne. by eapply list_elem_of_lookup_2.
Qed.

Lemma supportLang_languages (lang : string) :
  lang ∈ languages ↔ is_Some (supportLang !! lang).
Proof.
  rewrite <- elem_of_dom.
  assert (dom supportLang = list_to_set (C:=gset string) languages) as ->
    by (vm_compute; reflexivity).
  by rewrite elem_of_list_to_set.
Qed.

Lemma supportLang_bound : map_Forall (λ _ i, i < 5) supportLang.
Proof. by_evaluation. Qed.

Lemma getBuildInTypeByLang_key (value lang : string) (buildInTypes : list string) (i : nat) :
  BuildInTypes !! value = Some buildInTypes →
  default 0 (supportLang !! lang) = i →
  getBuildInTypeByLang value lang =
    match buildInTypes !! i with
    | Some buildType => Returns (buildType, true)
    | None => Panics
    end.
Proof. intros Hv <-. unfold getBuildInTypeByLang. by rewrite Hv. Qed.

Lemma supportLang_index (lang : string) (i : nat) :
  supportLang !! lang = Some i ↔ languages !! i = Some lang.
Proof.
  split.
  - intros Hi. assert (lang ∈ languages) as Hlang
      by (apply supportLang_languages; by eexists).
    unfold languages in Hlang. rewrite !elem_of_cons in Hlang.
    destruct Hlang as [->|[->|[->|[->|[->|Hnil]]]]];
      [| | | | |by apply not_elem_of_nil in Hnil];
      vm_compute in Hi; injection Hi as <-; reflexivity.
  - destruct i as [|[|[|[|[|i]]]]]; simpl; intros [= <-];
      vm_compute; reflexivity.
Qed.

(** C2, as the code has it: a name that is no key of the table is not
    found, whatever the language; a key of the table is found for every
    language string: for one of the five languages with the spelling at
    the index of that language in the entry, and for any other language
    with the spelling at index 0 of the entry, the one of Go. *)
Theorem getBuildInTypeByLang_found (value lang : string) :
  (BuildInTypes !! value = None →
     getBuildInTypeByLang value lang = Returns ("", false)) ∧
  (∀ buildInTypes, BuildInTypes !! value = Some buildInTypes →
     ∃ buildType,
       getBuildInTypeByLang value lang = Returns (buildType, true) ∧
       (∀ i, languages !! i = Some lang → buildInTypes !! i = Some buildType) ∧
       (lang ∉ languages →
          buildInTypes !! 0 = Some buildType ∧
          getBuildInTypeByLang value "Go" = Returns (buildType, true))).
Proof.
  split.
  - intros Hv. unfold getBuildInTypeByLang. by rewrite Hv.
  - intros buildInTypes Hv.
    destruct (BuildInTypes_index value buildInTypes (default 0 (supportLang !! lang)) Hv)
      as (buildType & Ht & _).
    { destruct (supportLang !! lang) as [i|] eqn:Hi; simpl; [|lia].
      exact (supportLang_bound lang i Hi). }
    exists buildType. split; [|split].
    + by rewrite (getBuildInTypeByLang_key value lang buildInTypes _ Hv eq_refl), Ht.
    + intros i Hi%supportLang_index. by rewrite Hi in Ht.
    + intros Hlang. rewrite supportLang_languages in Hlang.
      apply eq_None_not_Some in Hlang. rewrite Hlang in Ht. simpl in Ht.
      split; [done|].
      by rewrite (getBuildInTypeByLang_key value "Go" buildInTypes 0 Hv), Ht
        by (by vm_compute).
Qed.

Lemma getBuildInTypeByLang_found_witness :
  getBuildInTypeByLang "not-a-type" "Go" = Returns ("", false) ∧
  getBuildInTypeByLang "QName" "Python" = Returns ("xml.Name", true) ∧
  getBuildInTypeByLang "QName" "TypeScript" = Returns ("any", true).
Proof.
  split; [|split].
  - apply (getBuildInTypeByLang_found "not-a-type" "Go"). reflexivity.
  - destruct (proj2 (getBuildInTypeByLang_found "QName" "Python")
                ["xml.Name"; "any"; "char"; "String"; "char"] eq_refl)
      as (buildType & Hfound & _ & Hother).
    destruct Hother as [Hzero _]; [by_evaluation|].
    injection Hzero as <-. exact Hfound.
  - destruct (proj2 (getBuildInTypeByLang_found "QName" "TypeScript")
                ["xml.Name"; "any"; "char"; "String"; "char"] eq_refl)
      as (buildType & Hfound & Hindex & _).
    specialize (Hindex 1 eq_refl). injection Hindex as <-. exact Hfound.
Defined.

(** C2, counterexample: [string] is a key of the table and [Python] is
    none of the five languages, yet the lookup reports the name as found. *)
Lemma getBuildInTypeByLang_unsupported_language_found :
  is_Some (BuildInTypes !! "string") ∧ ("Python" ∉ languages) ∧
  getBuildInTypeByLang "string" "Python" = Returns ("string", true).
Proof.
  split; [by eexists|]. split; [|reflexivity].
  by_evaluation.
Qed.

(** C3, as the code has it: the table has exactly 49 keys, exactly 4 of
    them with the namespace prefix [xml], and every value is a list of
    exactly five spellings, one at each index a language stands for. *)
Theorem BuildInTypes_shape :
  size BuildInTypes = 49 ∧
  dom (filter (λ entry, getNSPrefix entry.1 = "xml") BuildInTypes)
    = {[ "xml:lang"; "xml:space"; "xml:base"; "xml:id" ]} ∧
  size (filter (λ entry, getNSPrefix entry.1 = "xml") BuildInTypes) = 4 ∧
  map_Forall (λ _ buildInTypes, length buildInTypes = 5) BuildInTypes ∧
  dom supportLang = list_to_set languages ∧
  map_Forall (λ _ i, i < 5) supportLang.
Proof.
  split; [vm_compute; reflexivity|].
  split; [vm_compute; reflexivity|].
  split; [vm_compute; reflexivity|].
  split; [|split].
  - intros value buildInTypes Hv. by destruct (BuildInTypes_entries_ok _ _ Hv).
  - vm_compute; reflexivity.
  - exact supportLang_bound.
Qed.

(** C3, counterexample: the table does not have 46 keys. *)
Lemma BuildInTypes_not_46_keys : size BuildInTypes ≠ 46.
Proof. vm_compute. discriminate. Qed.

(** C5: for every key of the table and each of the five languages the
    lookup returns, finds the name, and gives the spelling that the entry
    of the key holds at the index of the language (Go 0, TypeScript 1,
    C 2, Java 3, Rust 4); that spelling is not empty. *)
Theorem getBuildInTypeByLang_total (value lang : string) :
  value ∈ dom BuildInTypes → lang ∈ languages →
  ∃ buildInTypes i buildType,
    BuildInTypes !! value = Some buildInTypes ∧
    languages !! i = Some lang ∧
    buildInTypes !! i = Some buildType ∧
    getBuildInTypeByLang value lang = Returns (buildType, true) ∧
    buildType ≠ "".
Proof.
  rewrite elem_of_dom. intros [buildInTypes Hv] Hlang.
  apply supportLang_languages in Hlang as [i Hi].
  destruct (BuildInTypes_index value buildInTypes i Hv) as (buildType & Ht & Hne).
  - exact (supportLang_bound lang i Hi).
  - exists buildInTypes, i, buildType. split; [done|].
    split; [by apply supportLang_index|]. split; [done|]. split; [|done].
    by rewrite (getBuildInTypeByLang_key value lang buildInTypes i Hv), Ht
      by (by rewrite Hi).
Qed.

Lemma getBuildInTypeByLang_total_witness :
  getBuildInTypeByLang "unsignedShort" "Rust" = Returns ("u16", true).
Proof.
  destruct (getBuildInTypeByLang_total "unsignedShort" "Rust")
    as (buildInTypes & i & buildType & Hv & Hi & Ht & Hfound & _).
  - apply elem_of_dom. by eexists.
  - by_evaluation.
  - vm_compute in Hv. injection Hv as <-.
    assert (i = 4) as ->.
    { destruct i as [|[|[|[|[|i]]]]]; vm_compute in Hi; congruence. }
    injection Ht as <-. exact Hfound.
Defined.

(** ** The resolver *)

Lemma getBasefromSimpleType_head (name : string) (ele : Declaration) :
  (∃ base, resolves name ele base ∧
     ∀ rest, getBasefromSimpleType name (ele :: rest) = base) ∨
  (unmatched name ele ∧
     ∀ rest, getBasefromSimpleType name (ele :: rest) = getBasefromSimpleType name rest).
Proof.
  destruct ele as [v|v|v|]; simpl.
  - destruct (SimpleType.List v) eqn:HList, (SimpleType.Union v) eqn:HUnion; simpl;
      try (right; split; [intros base H; inversion H; congruence | done]).
    case_bool_decide as HName.
    + left. eexists. split; [by constructor | done].
    + right. split; [intros base H; inversion H; congruence | done].
  - case_bool_decide as HName.
    + left. eexists. split; [by constructor | done].
    + right. split; [intros base H; inversion H; congruence | done].
  - case_bool_decide as HName.
    + left. eexists. split; [by constructor | done].
    + right. split; [intros base H; inversion H; congruence | done].
  - right. split; [intros base H; inversion H | done].
Qed.

(** C1, as the code has it: the first declaration in list order that
    answers for [name] decides, whichever of the three kinds it is (a
    [SimpleType] that is neither list nor union gives its [Base], an
    [Attribute] or [Element] its [Type]); without any, [name] is returned
    unchanged. *)
Theorem getBasefromSimpleType_first_match (name : string) (XSDSchema : list Declaration) :
  (∃ before ele after base,
     XSDSchema = before ++ ele :: after ∧
     Forall (unmatched name) before ∧
     resolves name ele base ∧
     getBasefromSimpleType name XSDSchema = base) ∨
  (Forall (unmatched name) XSDSchema ∧
   getBasefromSimpleType name XSDSchema = name).
Proof.
  induction XSDSchema as [|ele rest IH].
  - right. by split.
  - destruct (getBasefromSimpleType_head name ele) as [(base & Hres & Hhead)|[Hun Hhead]].
    + left. exists [], ele, rest, base. by rewrite Hhead.
    + rewrite Hhead.
      destruct IH as [(before & ele' & after & base & -> & Hbefore & Hres & Hbase)|[Hall Hname]].
      * left. exists (ele :: before), ele', after, base.
        split; [done|]. split; [by constructor|]. done.
      * right. split; [by constructor | done].
Qed.

(** C1, counterexample: an [Attribute] named [Foo] stands before a fitting
    [SimpleType] named [Foo]; the attribute's type is returned, not the
    base of the simple type. *)
Lemma getBasefromSimpleType_earlier_Attribute_wins :
  (∃ v, PSimpleType v ∈ schema_Foo ∧
        resolves "Foo" (PSimpleType v) "string") ∧
  ResolveBase_two_pass "Foo" schema_Foo = "string" ∧
  getBasefromSimpleType "Foo" schema_Foo = "int" ∧
  getBasefromSimpleType "Foo" schema_Foo ≠ ResolveBase_two_pass "Foo" schema_Foo.
Proof.
  split; [|by split].
  eexists. split.
  - unfold schema_Foo. apply list_elem_of_In. right. left. reflexivity.
  - by apply (resolves_SimpleType "Foo"
      {| SimpleType.Name := "Foo"; SimpleType.Base := "string";
         SimpleType.List := false; SimpleType.Union := false |}).
Qed.

(** X7: the one pass agrees with the two passes of the specification
    whenever no [Attribute] or [Element] carries the name, or no fitting
    [SimpleType] does. *)
Lemma getBasefromSimpleType_two_pass (name : string) (XSDSchema : list Declaration) :
  first_Attribute_or_Element name XSDSchema = None ∨
  first_SimpleType name XSDSchema = None →
  getBasefromSimpleType name XSDSchema = ResolveBase_two_pass name XSDSchema.
Proof.
  unfold ResolveBase_two_pass.
  induction XSDSchema as [|[v|v|v|] rest IH]; simpl; [done|..].
  - destruct (_ && _); [by intros [?|?]|]. done.
  - case_bool_decide; [|done]. intros [?|Hnone]; [done|]. by rewrite Hnone.
  - case_bool_decide; [|done]. intros [?|Hnone]; [done|]. by rewrite Hnone.
  - done.
Qed.

(** ** The dispatcher *)

(** C8: without a method of that name the call is skipped and no error is
    returned; a method without result gives no error; the one result of a
    method that reports an error is returned as it is, and a nil result
    gives no error. *)
Theorem callFuncByName_error {param : Type} (methods : MethodSet param)
    (name : string) (params : list param) :
  (methods name = None →
     callFuncByName (non_nil methods) name params = Returns None) ∧
  (∀ function, methods name = Some function →
     (function params = Returns [] →
        callFuncByName (non_nil methods) name params = Returns None) ∧
     (∀ e, function params = Returns [ErrorValue e] →
        callFuncByName (non_nil methods) name params = Returns (Some e)) ∧
     (function params = Returns [NilValue] →
        callFuncByName (non_nil methods) name params = Returns None)).
Proof.
  unfold callFuncByName. split.
  - by intros ->.
  - intros function ->. repeat split.
    + by intros ->.
    + by intros e ->.
    + by intros ->.
Qed.

Lemma callFuncByName_error_witness :
  callFuncByName generator "ComplexType" [1; 2] = Returns None ∧
  callFuncByName generator "Element" [1; 2] = Returns None ∧
  callFuncByName generator "Group" [1; 2] = Returns (Some (ErrMsg "group")) ∧
  callFuncByName generator "Attribute" [1; 2] = Returns None.
Proof.
  split; [|split; [|split]].
  - apply (callFuncByName_error generator_methods "ComplexType" [1; 2]). reflexivity.
  - destruct (proj2 (callFuncByName_error generator_methods "Element" [1; 2]) _ eq_refl)
      as (Hnone & _ & _).
    exact (Hnone eq_refl).
  - destruct (proj2 (callFuncByName_error generator_methods "Group" [1; 2]) _ eq_refl)
      as (_ & Herr & _).
    exact (Herr (ErrMsg "group") eq_refl).
  - destruct (proj2 (callFuncByName_error generator_methods "Attribute" [1; 2]) _ eq_refl)
      as (_ & _ & Hnil).
    exact (Hnil eq_refl).
Defined.

(** ** Listing files *)

Lemma insert_by_name_perm {A : Type} (e : string * A) (l : list (string * A)) :
  filepath.insert_by_name e l ≡ₚ e :: l.
Proof.
  induction l as [|e' l IH]; simpl; [done|].
  destruct (String.leb e.1 e'.1); [done|].
  rewrite IH. apply Permutation_swap.
Qed.

Lemma by_name_perm {A : Type} (l : list (string * A)) : filepath.by_name l ≡ₚ l.
Proof.
  induction l as [|e l IH]; simpl; [done|].
  unfold filepath.by_name in *. simpl. by rewrite insert_by_name_perm, IH.
Qed.

Lemma by_name_map {A B : Type} (g : string → A → B) (l : list (string * A)) :
  filepath.by_name (map (λ '(name, x), (name, g name x)) l)
  = map (λ '(name, x), (name, g name x)) (filepath.by_name l).
Proof.
  unfold filepath.by_name.
  induction l as [|[name x] l IH]; simpl; [done|]. rewrite IH.
  generalize (foldr filepath.insert_by_name [] l) as sorted.
  induction sorted as [|[name' x'] sorted IHs]; simpl; [done|].
  destruct (String.leb name name'); simpl; [done|]. by rewrite IHs.
Qed.

Lemma walk_Dir {St : Type} (fn : filepath.WalkFunc St) (path : string) (mode : Z)
    (entries : list (string * node)) (st : St) :
  filepath.walk fn path (Dir mode entries) st
  = let err := if os.readable mode then None else Some ErrPermission in
    let '(st1, err1) := fn path (Some {| os.IsDir := true |}) err st in
    match err, err1 with
    | None, None =>
        filepath.walk_names fn path (os.searchable mode)
          (filepath.by_name (map (λ '(name, child),
             (name, (os.IsDir (os.info child),
                     filepath.walk fn (filepath.Join [path; name]) child))) entries))
          st1
    | _, _ => (st1, err1)
    end.
Proof. reflexivity. Qed.

Lemma visited_Dir (path : string) (mode : Z) (entries : list (string * node)) :
  visited path (Dir mode entries)
  = path ::
    (if os.readable mode then
       concat (map snd (filepath.by_name (map (λ '(name, child),
         (name, if os.searchable mode
                then visited (filepath.Join [path; name]) child
                else [filepath.Join [path; name]])) entries)))
     else []).
Proof. reflexivity. Qed.

Lemma walk_collect (n : node) :
  ∀ path files,
    filepath.walk (λ fp _ _ files, (files ++ [fp], None)) path n files
    = (files ++ visited path n, None).
Proof.
  induction n as [|mode entries IH] using node_tree_ind; intros path files.
  - done.
  - rewrite walk_Dir, visited_Dir. cbv zeta.
    destruct (os.readable mode); [|done].
    rewrite (by_name_map (λ name child,
      (os.IsDir (os.info child),
       filepath.walk (λ fp _ _ files, (files ++ [fp], None))
         (filepath.Join [path; name]) child))).
    rewrite (by_name_map (λ name child,
      if os.searchable mode then visited (filepath.Join [path; name]) child
      else [filepath.Join [path; name]])).
    rewrite <- (by_name_perm entries) in IH.
    lazymatch goal with
    | |- _ = (files ++ path :: ?under, _) =>
        change (files ++ path :: under) with (files ++ ([path] ++ under));
        rewrite (app_assoc files [path] under)
    end.
    revert IH. generalize (filepath.by_name entries) as sorted.
    intros sorted IH. generalize (files ++ [path]) as seen.
    induction IH as [|[name child] rest Hchild _ IHrest]; intros seen; simpl.
    + by rewrite app_nil_r.
    + destruct (os.searchable mode).
      * simpl in Hchild. rewrite Hchild, IHrest. by rewrite app_assoc.
      * rewrite IHrest. by rewrite <- app_assoc.
Qed.

Lemma GetFileList_directory (fs : node) (path : string) (mode : Z)
    (entries : list (string * node)) :
  os.lookup fs path = inl (Dir mode entries) →
  GetFileList fs path = (visited path (Dir mode entries) ++ [path], None).
Proof.
  intros Hn. unfold GetFileList, os.Stat, filepath.Walk. rewrite Hn.
  cbn [os.info os.IsDir]. by rewrite walk_collect.
Qed.





(** ** Preparing the output directory *)

(** When the status check fails for another reason than the path not
    existing, nothing is created and no error is returned. *)
Lemma PrepareOutputDir_other_Stat_error (fs : node) (path : string) (err : error) :
  path ≠ "" → os.Stat fs path = inr err → os.IsNotExist err = false →
  PrepareOutputDir fs path = (fs, None).
Proof.
  intros Hpath HStat Herr. unfold PrepareOutputDir.
  rewrite bool_decide_eq_false_2 by done. by rewrite HStat, Herr.
Qed.

(** C9, the code at the failing input: the status check on [locked/out]
    fails with a permission error, which is not the path not existing;
    [PrepareOutputDir] returns no error and leaves the tree as it is. *)
Theorem PrepareOutputDir_permission_error_dropped :
  "locked/out" ≠ "" ∧
  os.Stat fs_AB "locked/out" = inr ErrPermission ∧
  os.IsNotExist ErrPermission = false ∧
  PrepareOutputDir fs_AB "locked/out" = (fs_AB, None).
Proof. by repeat split. Qed.

(** ** Fetching a schema *)

(** C6: one GET is issued, to [URL]; a response with status 200 gives what
    reading its body gives; a response with any other status gives an
    empty body and no error; a failure of the GET is returned as the
    error, with an empty body. *)
Theorem fetchSchema_status (client_Get : string → http.Response + error) (URL : string) :
  filter (λ ev, http.is_Get ev = true) (fetchSchema client_Get URL).2 = [http.Get URL] ∧
  (∀ resp, client_Get URL = inl resp →
     http.StatusCode resp = http.StatusOK →
     (fetchSchema client_Get URL).1 = http.Body resp) ∧
  (∀ resp, client_Get URL = inl resp →
     http.StatusCode resp ≠ http.StatusOK →
     (fetchSchema client_Get URL).1 = ([], None)) ∧
  (∀ err, client_Get URL = inr err →
     (fetchSchema client_Get URL).1 = ([], Some err)).
Proof.
  unfold fetchSchema. repeat split.
  - destruct (client_Get URL) as [resp|err]; [|done].
    case_bool_decide; [|done]. by destruct (http.Body resp) as [body [err|]].
  - intros resp -> Hstatus. rewrite bool_decide_eq_true_2 by done.
    by destruct (http.Body resp) as [body [err|]].
  - intros resp -> Hstatus. by rewrite bool_decide_eq_false_2.
  - by intros err ->.
Qed.

Lemma fetchSchema_status_witness :
  (fetchSchema server "http://host/ok").1 = (["x"%byte; "s"%byte; "d"%byte], None) ∧
  (fetchSchema server "http://host/missing").1 = ([], None) ∧
  (fetchSchema server "http://nowhere/").1 = ([], Some (ErrMsg "dial tcp: no such host")).
Proof.
  split; [|split].
  - apply (proj1 (proj2 (fetchSchema_status server "http://host/ok"))
             {| http.StatusCode := 200; http.Body := (["x"%byte; "s"%byte; "d"%byte], None) |});
      reflexivity.
  - apply (proj1 (proj2 (proj2 (fetchSchema_status server "http://host/missing")))
             {| http.StatusCode := 404; http.Body := (["n"%byte; "o"%byte], None) |});
      [reflexivity | discriminate].
  - apply (proj2 (proj2 (proj2 (fetchSchema_status server "http://nowhere/")))).
    reflexivity.
Defined.

(** ** The examples of the specification *)

Example getNSPrefix_ns_Elem : getNSPrefix "ns:Elem" = "ns".
Proof. reflexivity. Qed.

Example getNSPrefix_Elem : getNSPrefix "Elem" = "".
Proof. reflexivity. Qed.

Example getNSPrefix_a_b_c : getNSPrefix "a:b:c" = "".
Proof. reflexivity. Qed.

Example trimNSPrefix_ns_Elem : trimNSPrefix "ns:Elem" = "Elem".
Proof. reflexivity. Qed.

Example trimNSPrefix_Elem : trimNSPrefix "Elem" = "Elem".
Proof. reflexivity. Qed.

Example getBuildInTypeByLang_not_a_type (lang : string) :
  getBuildInTypeByLang "not-a-type" lang = Returns ("", false).
Proof. reflexivity. Qed.

Example getBasefromSimpleType_Foo :
  getBasefromSimpleType "Foo"
    [PSimpleType {| SimpleType.Name := "Foo"; SimpleType.Base := "string";
                    SimpleType.List := false; SimpleType.Union := false |}]
  = "string".
Proof. reflexivity. Qed.

Example getBasefromSimpleType_Bar : getBasefromSimpleType "Bar" [] = "Bar".
Proof. reflexivity. Qed.

Example GetFileList_file : GetFileList fs_AB "f" = (["f"], None).
Proof. reflexivity. Qed.

Example GetFileList_missing : GetFileList fs_AB "g" = ([], Some ErrNotExist).
Proof. reflexivity. Qed.

Example PrepareOutputDir_empty (fs : node) : PrepareOutputDir fs "" = (fs, None).
Proof. reflexivity. Qed.

(** A missing path is created by the first call, and the second call
    changes nothing. *)
Example PrepareOutputDir_twice :
  ∃ fs', PrepareOutputDir fs_AB "out/go" = (fs', None) ∧
         fs' ≠ fs_AB ∧
         os.Stat fs' "out/go" = inl {| os.IsDir := true |} ∧
         PrepareOutputDir fs' "out/go" = (fs', None).
Proof. eexists. split; [reflexivity|]. by repeat split. Qed.

(** Below a plain file the status check fails with [ErrNotDir]; that
    error is dropped like the permission error. *)
Example PrepareOutputDir_below_file :
  os.Stat fs_AB "f/out" = inr ErrNotDir ∧
  PrepareOutputDir fs_AB "f/out" = (fs_AB, None).
Proof. by split. Qed.

(** Paths as the helpers meet them: a slash at the end, [.] and [..], a
    slash in front. *)
Example Join_cleans :
  filepath.Join ["d/"; "A"] = "d/A" ∧ filepath.Join ["."; "A"] = "A" ∧
  filepath.Join ["/"; "d"] = "/d" ∧ filepath.Join ["d/../e"; "A"] = "e/A" ∧
  filepath.Join ["../d"; "A"] = "../d/A".
Proof. by vm_compute. Qed.

Example Clean_elements :
  filepath.Clean "abc//def//ghi" = "abc/def/ghi" ∧
  filepath.Clean "abc/./../def" = "def" ∧
  filepath.Clean "/abc/../../def" = "/def" ∧
  filepath.Clean "abc/../../././../def" = "../../def" ∧
  filepath.Clean "abc/" = "abc" ∧ filepath.Clean "" = "." ∧ filepath.Clean "/" = "/".
Proof. by vm_compute. Qed.

Example GetFileList_trailing_slash :
  GetFileList fs_AB "d/" = (["d/"; "d/A"; "d/B"; "d/"], None) ∧
  GetFileList fs_AB "f/" = ([], Some ErrNotDir).
Proof. by vm_compute. Qed.

Example GetFileList_dot :
  GetFileList fs_AB "." = (["."; "d"; "d/A"; "d/B"; "f"; "locked"; "."], None) ∧
  GetFileList fs_AB "d/../f" = (["d/../f"], None) ∧
  GetFileList fs_AB "/d" = (["/d"; "/d/A"; "/d/B"; "/d"], None).
Proof. by vm_compute. Qed.

(** The names are walked in their order, not in the order of the tree; a
    directory with the search bit only is listed alone, one with the read
    bit only with its entries, which are not entered. *)
Example GetFileList_modes :
  GetFileList fs_modes "d" = (["d"; "d/A"; "d/A/z"; "d/B"; "d"], None) ∧
  GetFileList fs_modes "pass" = (["pass"; "pass"], None) ∧
  GetFileList fs_modes "list" = (["list"; "list/j"; "list/k"; "list"], None).
Proof. by vm_compute. Qed.

Example Stat_modes :
  os.Stat fs_modes "pass/k" = inl {| os.IsDir := false |} ∧
  os.Stat fs_modes "list/k" = inr ErrPermission ∧
  os.Stat fs_modes "list/" = inl {| os.IsDir := true |} ∧
  os.Stat fs_modes "d/B/" = inr ErrNotDir ∧
  os.Stat fs_modes "d/A/../B" = inl {| os.IsDir := false |}.
Proof. by vm_compute. Qed.

(** A missing path in a directory without the write bit: the error of
    [os.MkdirAll] is returned. *)
Example PrepareOutputDir_read_only :
  os.Stat fs_modes "fixed/out" = inr ErrNotExist ∧
  PrepareOutputDir fs_modes "fixed/out" = (fs_modes, Some ErrPermission).
Proof. by vm_compute. Qed.

(** [os.MkdirAll] makes the directories on the way before it fails on a
    plain file at the end of the path. *)
Example PrepareOutputDir_partial :
  ∃ fs', PrepareOutputDir fs_modes "x/../d/B" = (fs', Some ErrExist) ∧
         os.Stat fs' "x" = inl {| os.IsDir := true |}.
Proof. eexists. split; by vm_compute. Qed.

(** * Further properties of the helpers *)

(** ** Namespace helpers *)

(** X1: a prefix and a local name without colon, put together with a
    colon, are given back by [getNSPrefix] and [trimNSPrefix]. *)
Theorem getNSPrefix_trimNSPrefix_of_qualified (prefix name : string) :
  strings.Count prefix ":" = 0 → strings.Count name ":" = 0 →
  getNSPrefix (prefix +:+ ":" +:+ name) = prefix ∧
  trimNSPrefix (prefix +:+ ":" +:+ name) = name.
Proof.
  intros Hp Hn. apply ns_one_colon.
  change (":" +:+ name) with (String ":" name).
  rewrite Count_app. simpl. lia.
Qed.

Lemma getNSPrefix_trimNSPrefix_of_qualified_witness :
  getNSPrefix ("xs" +:+ ":" +:+ "string") = "xs" ∧
  trimNSPrefix ("xs" +:+ ":" +:+ "string") = "string".
Proof.
  apply (getNSPrefix_trimNSPrefix_of_qualified "xs" "string"); reflexivity.
Defined.

Lemma ns_results (s : string) :
  (strings.Count s ":" = 1 ∧
   strings.Count (getNSPrefix s) ":" = 0 ∧ strings.Count (trimNSPrefix s) ":" = 0) ∨
  (strings.Count s ":" ≠ 1 ∧ getNSPrefix s = "" ∧ trimNSPrefix s = s).
Proof.
  destruct (decide (strings.Count s ":" = 1)) as [Hone|Hne].
  - left. split; [done|].
    destruct (Count_cut ":" s) as (p & n & -> & Hp); [lia|].
    pose proof Hone as Hcount. rewrite Count_app in Hcount. simpl in Hcount.
    destruct (ns_one_colon p n Hone) as [Hprefix Hname].
    change (String ":" n) with (":" +:+ n). rewrite Hprefix, Hname. lia.
  - right. split; [done|]. by apply ns_not_one_colon.
Qed.

(** X2: the prefix [getNSPrefix] returns never contains a colon, and the
    name [trimNSPrefix] returns is free of colons exactly when the input
    has at most one. *)
Theorem getNSPrefix_trimNSPrefix_colons (s : string) :
  strings.Count (getNSPrefix s) ":" = 0 ∧
  (strings.Count (trimNSPrefix s) ":" = 0 ↔ (strings.Count s ":" ≤ 1)%nat).
Proof.
  destruct (ns_results s) as [(Hone & Hp & Hn)|(Hne & -> & ->)].
  - split; [done|]. split; lia.
  - split; [done|]. split; lia.
Qed.

(** X3: trimming twice is trimming once, and what [trimNSPrefix] returns
    has no prefix left for [getNSPrefix]. *)
Theorem trimNSPrefix_idempotent (s : string) :
  trimNSPrefix (trimNSPrefix s) = trimNSPrefix s ∧
  getNSPrefix (trimNSPrefix s) = "".
Proof.
  destruct (ns_results s) as [(Hone & Hp & Hn)|(Hne & Hprefix & Hname)].
  - destruct (ns_not_one_colon (trimNSPrefix s)) as [Hprefix Hname]; [lia|].
    by rewrite Hprefix, Hname.
  - rewrite Hname. split; [done|]. by apply ns_not_one_colon.
Qed.

(** ** The built-in type table *)

(** X4: the lookup returns for every name and every language string, the
    five languages or not: it never indexes an entry out of range.  The
    name is reported found exactly when it is a key of the table, and the
    returned spelling is empty exactly when it is not found. *)
Theorem getBuildInTypeByLang_returns (value lang : string) :
  ∃ buildType ok,
    getBuildInTypeByLang value lang = Returns (buildType, ok) ∧
    (ok = true ↔ value ∈ dom BuildInTypes) ∧
    (buildType = "" ↔ ok = false).
Proof.
  destruct (BuildInTypes !! value) as [buildInTypes|] eqn:Hv.
  - destruct (BuildInTypes_index value buildInTypes (default 0 (supportLang !! lang)) Hv)
      as (buildType & Ht & Hne).
    { destruct (supportLang !! lang) as [i|] eqn:Hi; simpl; [|lia].
      exact (supportLang_bound lang i Hi). }
    exists buildType, true. split; [|split].
    + by rewrite (getBuildInTypeByLang_key value lang buildInTypes _ Hv eq_refl), Ht.
    + split; [|done]. intros _. apply elem_of_dom. by eexists.
    + split; [done|discriminate].
  - exists "", false. split; [|split].
    + unfold getBuildInTypeByLang. by rewrite Hv.
    + split; [discriminate|]. intros [? Hsome]%elem_of_dom. congruence.
    + done.
Qed.

(** ** The resolver *)

Lemma unmatched_or_resolves (name : string) (ele : Declaration) :
  unmatched name ele ∨ ∃ base, resolves name ele base.
Proof.
  destruct (getBasefromSimpleType_head name ele) as [(base & Hres & _)|[Hun _]];
    [right; by exists base | by left].
Qed.

(** X5: on the declarations of two lists one after the other, the first
    list decides as soon as one of its declarations answers for the name;
    only when none does, the second list decides. *)
Theorem getBasefromSimpleType_app (name : string) (before after : list Declaration) :
  (Exists (λ ele, ∃ base, resolves name ele base) before →
     getBasefromSimpleType name (before ++ after) = getBasefromSimpleType name before) ∧
  (Forall (unmatched name) before →
     getBasefromSimpleType name (before ++ after) = getBasefromSimpleType name after).
Proof.
  split.
  - induction before as [|ele before IH]; intros Hex; [by inversion Hex|].
    rewrite <- app_comm_cons.
    destruct (getBasefromSimpleType_head name ele) as [(base & _ & Hhead)|[Hun Hhead]].
    + by rewrite !Hhead.
    + rewrite !Hhead. apply IH.
      inversion Hex as [? ? [base Hres]|]; [|done]. by destruct (Hun base).
  - induction 1 as [|ele before Hun _ IH]; [done|].
    rewrite <- app_comm_cons.
    destruct (getBasefromSimpleType_head name ele) as [(base & Hres & _)|[_ Hhead]].
    + by destruct (Hun base).
    + by rewrite Hhead.
Qed.

Lemma getBasefromSimpleType_app_witness :
  getBasefromSimpleType "Code" (schema_types ++ schema_attrs)
    = getBasefromSimpleType "Code" schema_types ∧
  getBasefromSimpleType "Ids" (schema_types ++ schema_attrs)
    = getBasefromSimpleType "Ids" schema_attrs.
Proof.
  split.
  - apply (proj1 (getBasefromSimpleType_app "Code" schema_types schema_attrs)).
    unfold schema_types. do 2 apply Exists_cons_tl. apply Exists_cons_hd.
    eexists. by apply resolves_SimpleType.
  - apply (proj2 (getBasefromSimpleType_app "Ids" schema_types schema_attrs)).
    unfold schema_types.
    repeat apply List.Forall_cons; try apply List.Forall_nil;
      intros base H; inversion H; discriminate.
Defined.

(** X6: the declarations that cannot answer for the name do not count:
    dropping declarations from the list changes nothing as long as every
    one that answers for the name is kept. *)
Theorem getBasefromSimpleType_filter (P : Declaration → Prop)
    `{!∀ ele, Decision (P ele)} (name : string) (XSDSchema : list Declaration) :
  (∀ ele base, resolves name ele base → P ele) →
  getBasefromSimpleType name (filter P XSDSchema) = getBasefromSimpleType name XSDSchema.
Proof.
  intros HP. induction XSDSchema as [|ele rest IH]; [done|].
  destruct (getBasefromSimpleType_head name ele) as [(base & Hres & Hhead)|[Hun Hhead]].
  - rewrite filter_cons_True by by eapply HP. by rewrite !Hhead.
  - rewrite Hhead. destruct (decide (P ele)).
    + rewrite filter_cons_True by done. by rewrite Hhead.
    + by rewrite filter_cons_False.
Qed.

Lemma getBasefromSimpleType_filter_witness :
  getBasefromSimpleType "Code" (filter (named "Code") (schema_types ++ schema_attrs))
  = getBasefromSimpleType "Code" (schema_types ++ schema_attrs).
Proof.
  apply (getBasefromSimpleType_filter (named "Code") "Code").
  intros ele base H. by destruct H.
Defined.

Lemma getBasefromSimpleType_two_pass_witness :
  getBasefromSimpleType "Ids" (schema_types ++ schema_attrs)
  = ResolveBase_two_pass "Ids" (schema_types ++ schema_attrs).
Proof.
  apply (getBasefromSimpleType_two_pass "Ids"). right. reflexivity.
Defined.

(** ** The dispatcher *)

(** X8: an error comes back exactly when the receiver is not nil, the
    method exists and the first of its results is that error; results
    after the first are not looked at. *)
Theorem callFuncByName_error_iff {param : Type} (receiver : Receiver param)
    (name : string) (params : list param) (e : error) :
  callFuncByName receiver name params = Returns (Some e) ↔
  ∃ methods function rest,
    receiver = non_nil methods ∧
    methods name = Some function ∧
    function params = Returns (ErrorValue e :: rest).
Proof.
  unfold callFuncByName. split.
  - destruct receiver as [|methods]; [done|].
    destruct (methods name) as [function|] eqn:Hmethod; [|done].
    destruct (function params) as [[|[] rest]|] eqn:Hcall; try done.
    intros [= ->]. by exists methods, function, rest.
  - intros (methods & function & rest & -> & -> & ->). done.
Qed.

(** X9: the dispatch panics exactly when the receiver is the nil
    interface, or the method exists and either the call itself panics or
    the first result is a non-nil value that is no error, or a value of a
    kind without nil.  On a receiver that is not nil a missing method
    never panics. *)
Theorem callFuncByName_panics_iff {param : Type} (receiver : Receiver param)
    (name : string) (params : list param) :
  callFuncByName receiver name params = Panics ↔
  receiver = nil_interface ∨
  ∃ methods function,
    receiver = non_nil methods ∧
    methods name = Some function ∧
    (function params = Panics ∨
     ∃ rest, function params = Returns (NonError :: rest) ∨
             function params = Returns (NotNilable :: rest)).
Proof.
  unfold callFuncByName. split.
  - destruct receiver as [|methods]; [by left|].
    destruct (methods name) as [function|] eqn:Hmethod; [|done].
    destruct (function params) as [[|[] rest]|] eqn:Hcall; try done;
      intros _; right; exists methods, function; (split; [done|]);
      (split; [done|]); eauto.
  - intros [->|(methods & function & -> & -> & [->|(rest & [->| ->])])]; done.
Qed.

(** ** Listing files *)

Lemma visited_self (path : string) (n : node) : path ∈ visited path n.
Proof. destruct n; [|rewrite visited_Dir]; apply list_elem_of_here. Qed.



(** X10: [GetFileList] fails exactly when the first status check fails,
    and then with that error and no path; nothing met during the walk
    makes it fail.  A successful list is never empty: its last element is
    [path]. *)
Theorem GetFileList_result (fs : node) (path : string) :
  (∀ err, os.Stat fs path = inr err → GetFileList fs path = ([], Some err)) ∧
  (∀ fi, os.Stat fs path = inl fi →
     ∃ files, GetFileList fs path = (files ++ [path], None)).
Proof.
  split.
  - intros err HStat. unfold GetFileList. by rewrite HStat.
  - intros fi HStat. unfold os.Stat in HStat.
    destruct (os.lookup fs path) as [[|mode entries]|err] eqn:Hn; [| |done].
    + exists []. unfold GetFileList, os.Stat. by rewrite Hn.
    + eexists. by apply GetFileList_directory.
Qed.

Lemma GetFileList_result_witness :
  GetFileList fs_AB "locked/x" = ([], Some ErrPermission) ∧
  ∃ files, GetFileList fs_AB "locked" = (files ++ ["locked"], None).
Proof.
  split.
  - apply (proj1 (GetFileList_result fs_AB "locked/x")). by vm_compute.
  - apply (proj2 (GetFileList_result fs_AB "locked") {| os.IsDir := true |}).
    by vm_compute.
Defined.



(** ** Preparing the output directory *)

(** X12: the tree is touched only when the status check reports that the
    path does not exist.  For the empty path, for a path that exists (a
    plain file too, not only a directory), and for a status check that
    fails for another reason, the tree stays as it is and no error is
    returned. *)
Theorem PrepareOutputDir_untouched (fs : node) (path : string) :
  path = "" ∨ os.Stat fs path ≠ inr ErrNotExist →
  PrepareOutputDir fs path = (fs, None).
Proof.
  intros Hcase. unfold PrepareOutputDir.
  case_bool_decide as Hpath; [done|].
  destruct Hcase as [?|HStat]; [done|].
  destruct (os.Stat fs path) as [fi|err]; [done|].
  by destruct err.
Qed.

Lemma PrepareOutputDir_untouched_witness :
  PrepareOutputDir fs_AB "f" = (fs_AB, None) ∧
  PrepareOutputDir fs_AB "d" = (fs_AB, None).
Proof.
  split.
  - apply (PrepareOutputDir_untouched fs_AB "f"). right. by vm_compute.
  - apply (PrepareOutputDir_untouched fs_AB "d"). right. by vm_compute.
Defined.

(** One tree has what another has, one level down: the same kind, the
    same permission bits, and every name of the other. *)
Definition grows (n n' : node) : Prop :=
  match n, n' with
  | File, File => True
  | Dir mode entries, Dir mode' entries' =>
      mode = mode' ∧
      ∀ name, is_Some (os.find_entry name entries) → is_Some (os.find_entry name entries')
  | _, _ => False
  end.

Lemma grows_refl (n : node) : grows n n.
Proof. by destruct n. Qed.

Lemma find_entry_app (name : string) (entries more : list (string * node)) :
  os.find_entry name (entries ++ more)
  = match os.find_entry name entries with
    | Some child => Some child
    | None => os.find_entry name more
    end.
Proof.
  induction entries as [|[n c] rest IH]; simpl; [done|]. by case_bool_decide.
Qed.

Lemma find_entry_update (name x : string) (f : node → node)
    (entries : list (string * node)) :
  os.find_entry name
    (map (λ e, if bool_decide (e.1 = x) then (e.1, f e.2) else e) entries)
  = (if bool_decide (name = x) then f else id) <$> os.find_entry name entries.
Proof.
  induction entries as [|[n c] rest IH]; simpl; [done|].
  destruct (decide (n = x)) as [->|Hx].
  - rewrite (bool_decide_eq_true_2 (x = x)) by done. simpl.
    destruct (decide (x = name)) as [->|Hname].
    + by rewrite !(bool_decide_eq_true_2 (name = name)).
    + rewrite (bool_decide_eq_false_2 (x = name)) by done. exact IH.
  - rewrite (bool_decide_eq_false_2 (n = x)) by done. simpl.
    destruct (decide (n = name)) as [->|Hname].
    + rewrite (bool_decide_eq_true_2 (name = name)) by done.
      by rewrite (bool_decide_eq_false_2 (name = x)).
    + rewrite (bool_decide_eq_false_2 (n = name)) by done. exact IH.
Qed.

Lemma grows_insert_at (n : node) (here : list string) (entry : string * node) :
  grows n (os.insert_at n here entry).
Proof.
  destruct n as [|mode entries]; [done|]. destruct here as [|x xs]; simpl.
  - split; [done|]. intros name [child Hchild].
    rewrite find_entry_app, Hchild. by eexists.
  - split; [done|]. intros name [child Hchild].
    rewrite (find_entry_update name x (λ n, os.insert_at n xs entry)), Hchild.
    by eexists.
Qed.

Lemma lookup_at_insert_at (cur : list string) :
  ∀ (fs : node) (here : list string) (entry : string * node) (n : node),
    os.lookup_at fs cur = Some n →
    ∃ n', os.lookup_at (os.insert_at fs here entry) cur = Some n' ∧ grows n n'.
Proof.
  induction cur as [|c cs IH]; intros fs here entry n; simpl.
  - intros [= <-]. eexists. split; [done|]. apply grows_insert_at.
  - destruct fs as [|mode entries]; [done|].
    destruct (os.find_entry c entries) as [child|] eqn:Hc; [|done]. intros Hn.
    destruct here as [|x xs]; simpl.
    + rewrite find_entry_app, Hc. exists n. split; [done|]. apply grows_refl.
    + rewrite (find_entry_update c x (λ n, os.insert_at n xs entry)), Hc.
      simpl. case_bool_decide.
      * by apply IH.
      * exists n. split; [done|]. apply grows_refl.
Qed.

Lemma lookup_at_insert_at_new (here : list string) :
  ∀ (fs : node) (c : string) (d : node) (mode : Z) (entries : list (string * node)),
    os.lookup_at fs here = Some (Dir mode entries) →
    os.find_entry c entries = None →
    os.lookup_at (os.insert_at fs here (c, d)) (here ++ [c]) = Some d.
Proof.
  induction here as [|x xs IH]; intros fs c d mode entries; simpl.
  - intros [= ->] Hc. simpl. rewrite find_entry_app, Hc. simpl.
    by rewrite bool_decide_eq_true_2.
  - destruct fs as [|mode0 entries0]; [done|].
    destruct (os.find_entry x entries0) as [child|] eqn:Hx; [|done].
    intros Hn Hc. simpl.
    rewrite (find_entry_update x x (λ n, os.insert_at n xs (c, d))), Hx. simpl.
    rewrite bool_decide_eq_true_2 by done. by apply (IH child c d mode entries).
Qed.

Lemma lookup_at_snoc (here : list string) :
  ∀ (fs : node) (c : string),
    os.lookup_at fs (here ++ [c])
    = match os.lookup_at fs here with
      | Some (Dir _ entries) => os.find_entry c entries
      | _ => None
      end.
Proof.
  induction here as [|x xs IH]; intros fs c; simpl.
  - destruct fs as [|mode entries]; [done|]. by destruct (os.find_entry c entries).
  - destruct fs as [|mode entries]; [done|].
    destruct (os.find_entry x entries) as [child|]; [|done]. apply IH.
Qed.

Lemma locate_insert_at (fs : node) (here : list string) (entry : string * node)
    (comps : list string) :
  ∀ cur there,
    os.locate fs cur comps = inl there →
    os.locate (os.insert_at fs here entry) cur comps = inl there.
Proof.
  induction comps as [|c cs IH]; intros cur there; simpl; [done|].
  destruct (os.lookup_at fs cur) as [[|mode entries]|] eqn:Hcur; [done| |done].
  destruct (lookup_at_insert_at cur fs here entry _ Hcur) as ([|mode' entries'] & -> & Hgrows);
    [done|]. destruct Hgrows as [<- Hnames].
  destruct (os.searchable mode); simpl; [|done].
  repeat (case_bool_decide; [by auto|]).
  destruct (os.find_entry c entries) as [child|] eqn:Hc; [|done].
  destruct (Hnames c) as [child' ->]; [by eexists|]. apply IH.
Qed.

Lemma locate_app (fs : node) (comps more : list string) :
  ∀ cur,
    os.locate fs cur (comps ++ more)
    = match os.locate fs cur comps with
      | inl there => os.locate fs there more
      | inr err => inr err
      end.
Proof.
  induction comps as [|c cs IH]; intros cur; simpl; [done|].
  destruct (os.lookup_at fs cur) as [[|mode entries]|]; [done| |done].
  destruct (os.searchable mode); simpl; [|done].
  repeat (case_bool_decide; [by auto|]).
  by destruct (os.find_entry c entries).
Qed.

Lemma Mkdir_creates (fs fs' : node) (path : string) (perm : Z) :
  os.Mkdir fs path perm = (fs', None) →
  os.Stat fs' path = inl {| os.IsDir := true |}.
Proof.
  unfold os.Mkdir, os.Stat, os.lookup.
  destruct (os.refused path); [done|].
  destruct (reverse (os.components path)) as [|c before] eqn:Hcomps; [done|].
  assert (os.components path = reverse before ++ [c]) as ->.
  { rewrite <- (reverse_involutive (os.components path)), Hcomps.
    by rewrite reverse_cons. }
  destruct (os.locate fs [] (reverse before)) as [here|] eqn:Hhere; [|done].
  destruct (os.lookup_at fs here) as [[|mode entries]|] eqn:Hdir; [done| |done].
  destruct (os.searchable mode) eqn:Hsearch; simpl; [|done].
  case_bool_decide as Hdots; [done|].
  case_bool_decide as Hlong; [done|].
  destruct (os.find_entry c entries) as [child|] eqn:Hc; [done|].
  destruct (os.writable mode); simpl; [|done]. intros [= <-].
  pose proof (lookup_at_insert_at_new here fs c (Dir (Z.ldiff perm os.umask) [])
                mode entries Hdir Hc) as Hnew.
  rewrite locate_app, (locate_insert_at _ _ _ _ _ _ Hhere). simpl.
  destruct (lookup_at_insert_at here fs here (c, Dir (Z.ldiff perm os.umask) []) _ Hdir)
    as ([|mode' entries'] & Hdir' & Hgrows); [done|]. destruct Hgrows as [<- _].
  rewrite Hdir', Hsearch. simpl.
  rewrite bool_decide_eq_false_2 by (intros ->; apply Hdots; by left).
  rewrite bool_decide_eq_false_2 by (intros ->; apply Hdots; by right).
  rewrite bool_decide_eq_false_2 by done.
  rewrite lookup_at_snoc, Hdir' in Hnew. rewrite Hnew, lookup_at_snoc, Hdir', Hnew.
  simpl. by rewrite andb_false_r.
Qed.

Lemma length_string_of_list_ascii (l : list ascii) :
  String.length (String.string_of_list_ascii l) = length l.
Proof. induction l as [|c l IH]; simpl; [done|]. by rewrite IH. Qed.

Lemma length_list_ascii_of_string (s : string) :
  length (String.list_ascii_of_string s) = String.length s.
Proof. induction s as [|c s IH]; simpl; [done|]. by rewrite IH. Qed.

Lemma drop_slashes_length (l : list ascii) :
  (length (os.drop_slashes l) ≤ length l)%nat.
Proof.
  induction l as [|c l IH]; simpl; [done|]. destruct (Ascii.eqb c "/"); simpl; lia.
Qed.

Lemma drop_element_length (l : list ascii) :
  (length (os.drop_element l) ≤ length l)%nat.
Proof.
  induction l as [|c l IH]; simpl; [done|]. destruct (Ascii.eqb c "/"); simpl; lia.
Qed.

(** The parent that [MkdirAll] goes on with is shorter than the path. *)
Lemma parent_shorter (path : string) :
  path ≠ "" → (String.length (os.parent path) < String.length path)%nat.
Proof.
  intros Hpath. unfold os.parent.
  rewrite length_string_of_list_ascii, length_reverse.
  rewrite <- (length_list_ascii_of_string path), <- (length_reverse (String.list_ascii_of_string path)).
  destruct (reverse (String.list_ascii_of_string path)) as [|c l] eqn:Hl.
  - destruct path; [done|].
    apply (f_equal length) in Hl. rewrite length_reverse in Hl. simpl in Hl. lia.
  - simpl. destruct (Ascii.eqb c "/") eqn:Hc; simpl.
    + pose proof (drop_element_length (os.drop_slashes l)).
      pose proof (drop_slashes_length l). lia.
    + rewrite Hc. pose proof (drop_element_length l). lia.
Qed.

(** The fuel of [MkdirAll] is enough: with any fuel from the length of the
    path on, the result is the same. *)
Lemma mkdirAll_fuel (perm : Z) (fuel : nat) :
  ∀ fuel' fs path,
    (String.length path ≤ fuel)%nat → (String.length path ≤ fuel')%nat →
    os.mkdirAll fuel fs path perm = os.mkdirAll fuel' fs path perm.
Proof.
  induction fuel as [|fuel IH]; intros [|fuel'] fs path Hfuel Hfuel'; simpl;
    try done;
    destruct (os.Stat fs path) as [dir|err]; try done;
    case_bool_decide as Hparent; try done;
    destruct (decide (path = "")) as [->|Hpath]; try done;
    pose proof (parent_shorter path Hpath); try lia.
  rewrite (IH fuel' fs (os.parent path)) by lia. done.
Qed.

Lemma Stat_directory (fs : node) (path : string) (dir : os.FileInfo) :
  os.Stat fs path = inl dir → os.IsDir dir = true →
  os.Stat fs path = inl {| os.IsDir := true |}.
Proof. intros -> Hdir. destruct dir as [[]]; [done|discriminate]. Qed.

Lemma mkdirAll_creates (fuel : nat) (fs fs' : node) (path : string) (perm : Z) :
  os.mkdirAll fuel fs path perm = (fs', None) →
  os.Stat fs' path = inl {| os.IsDir := true |}.
Proof.
  destruct fuel as [|fuel]; simpl;
    (destruct (os.Stat fs path) as [dir|err0] eqn:HStat;
     [ destruct (os.IsDir dir) eqn:Hdir; [|done];
       intros [= <-]; by apply (Stat_directory fs path dir) | ]);
    match goal with
    | |- context [let '(_, _) := ?parent in _] =>
        destruct parent as [fs1 [err1|]]; [done|]
    end;
    (destruct (os.Mkdir fs1 path perm) as [fs2 [err2|]] eqn:HMkdir;
     [ unfold os.Lstat;
       destruct (os.Stat fs1 path) as [dir|err3] eqn:HStat1; [|done];
       destruct (os.IsDir dir) eqn:Hdir; [|done];
       intros [= <-]; by apply (Stat_directory fs1 path dir)
     | intros [= <-]; by apply (Mkdir_creates fs1 fs2 path perm) ]).
Qed.

Lemma PrepareOutputDir_created (fs fs' : node) (path : string) :
  path ≠ "" →
  os.Stat fs path = inr ErrNotExist →
  PrepareOutputDir fs path = (fs', None) →
  os.Stat fs' path = inl {| os.IsDir := true |}.
Proof.
  intros Hpath HStat. unfold PrepareOutputDir.
  rewrite bool_decide_eq_false_2 by done. rewrite HStat. simpl.
  unfold os.MkdirAll.
  destruct (os.mkdirAll (String.length path) fs path perm_0755) as [fs1 [err|]] eqn:Hmk;
    [done|].
  intros [= <-].
  by apply (mkdirAll_creates (String.length path) fs fs1 path perm_0755).
Qed.

(** X13: when the path is reported missing and [PrepareOutputDir] returns
    no error, the path is a directory afterwards. *)
Theorem PrepareOutputDir_creates_directory (fs fs' : node) (path : string) :
  path ≠ "" →
  os.Stat fs path = inr ErrNotExist →
  PrepareOutputDir fs path = (fs', None) →
  os.Stat fs' path = inl {| os.IsDir := true |}.
Proof. apply PrepareOutputDir_created. Qed.

Lemma PrepareOutputDir_creates_directory_witness :
  os.Stat (PrepareOutputDir fs_AB "d/out/go").1 "d/out/go" = inl {| os.IsDir := true |}.
Proof.
  apply (PrepareOutputDir_creates_directory fs_AB _ "d/out/go");
    [discriminate | by vm_compute | by vm_compute].
Defined.

(** X14: a call that returned no error can be repeated: the second call
    returns no error either and leaves the tree of the first as it is. *)
Theorem PrepareOutputDir_idempotent (fs fs' : node) (path : string) :
  PrepareOutputDir fs path = (fs', None) →
  PrepareOutputDir fs' path = (fs', None).
Proof.
  intros Hprep.
  destruct (decide (path = "")) as [->|Hpath]; [done|].
  assert (os.Stat fs path = inr ErrNotExist ∨ os.Stat fs path ≠ inr ErrNotExist)
    as [HStat|HStat].
  { destruct (os.Stat fs path) as [fi|[]]; (by left) || (by right). }
  - pose proof (PrepareOutputDir_created fs fs' path Hpath HStat Hprep) as Hdir.
    unfold PrepareOutputDir.
    rewrite bool_decide_eq_false_2 by done. by rewrite Hdir.
  - rewrite PrepareOutputDir_untouched in Hprep by by right.
    injection Hprep as <-. apply PrepareOutputDir_untouched. by right.
Qed.

Lemma PrepareOutputDir_idempotent_witness :
  PrepareOutputDir (PrepareOutputDir fs_AB "out/go").1 "out/go"
  = ((PrepareOutputDir fs_AB "out/go").1, None).
Proof.
  apply (PrepareOutputDir_idempotent fs_AB _ "out/go"). by vm_compute.
Defined.

(** ** Fetching a schema *)

(** X15: an error comes back exactly when the GET failed, or when the
    status was 200 and reading the body failed; a status other than 200
    never gives an error. *)
Theorem fetchSchema_error_iff (client_Get : string → http.Response + error)
    (URL : string) (err : error) :
  (fetchSchema client_Get URL).1.2 = Some err ↔
  client_Get URL = inr err ∨
  ∃ resp body,
    client_Get URL = inl resp ∧
    http.StatusCode resp = http.StatusOK ∧
    http.Body resp = (body, Some err).
Proof.
  unfold fetchSchema. split.
  - destruct (client_Get URL) as [resp|err'].
    + case_bool_decide as Hstatus; [|done].
      destruct (http.Body resp) as [body [err'|]] eqn:HBody; [|done].
      simpl. intros [= ->]. right. by exists resp, body.
    + simpl. intros [= ->]. by left.
  - intros [->|(resp & body & -> & Hstatus & ->)]; [done|].
    by rewrite bool_decide_eq_true_2.
Qed.

(** X16: whenever a response was obtained its body is closed, as the last
    thing that happens, and the body is read only for status 200; when the
    GET failed there is no response to read or close. *)
Theorem fetchSchema_events (client_Get : string → http.Response + error) (URL : string) :
  (∀ resp, client_Get URL = inl resp →
     last (fetchSchema client_Get URL).2 = Some http.Close ∧
     (http.ReadAll ∈ (fetchSchema client_Get URL).2 ↔
        http.StatusCode resp = http.StatusOK)) ∧
  (∀ err, client_Get URL = inr err →
     (fetchSchema client_Get URL).2 = [http.Get URL]).
Proof.
  unfold fetchSchema. split.
  - intros resp ->. case_bool_decide as Hstatus.
    + destruct (http.Body resp) as [body [err|]]; simpl;
        (split; [done|]); (split; [done|]); intros _;
        apply list_elem_of_further, list_elem_of_here.
    + simpl. split; [done|]. split; [|done].
      intros Hin. repeat (apply elem_of_cons in Hin as [?|Hin]; [done|]).
      by apply not_elem_of_nil in Hin.
  - by intros err ->.
Qed.

Lemma fetchSchema_events_witness :
  last (fetchSchema server "http://host/missing").2 = Some http.Close ∧
  (fetchSchema server "http://nowhere/").2 = [http.Get "http://nowhere/"].
Proof.
  split.
  - apply (proj1 (fetchSchema_events server "http://host/missing")
             {| http.StatusCode := 404; http.Body := (["n"%byte; "o"%byte], None) |}).
    reflexivity.
  - apply (proj2 (fetchSchema_events server "http://nowhere/")
             (ErrMsg "dial tcp: no such host")).
    reflexivity.
Defined.

(** ** Capitalising a name *)

Lemma upper_byte_ASCII (c : ascii) :
  strings.isASCII_byte c = true → strings.isASCII_byte (strings.upper_byte c) = true.
Proof. destruct c as [[] [] [] [] [] [] [] []]; by vm_compute. Qed.

Lemma upper_byte_idempotent (c : ascii) :
  strings.upper_byte (strings.upper_byte c) = strings.upper_byte c.
Proof. destruct c as [[] [] [] [] [] [] [] []]; by vm_compute. Qed.

Lemma string_app_empty (s : string) : s +:+ "" = s.
Proof.
  induction s as [|c s IH]; [done|].
  change (String c (s +:+ "") = String c s). by rewrite IH.
Qed.

Lemma MakeFirstUpperCase_cons (strings_Map_ToUpper bytes_Map_ToUpper : string → string)
    (c : ascii) (rest : string) :
  strings.isASCII_byte c = true →
  MakeFirstUpperCase strings_Map_ToUpper bytes_Map_ToUpper (String c rest)
  = String (strings.upper_byte c) rest.
Proof.
  intros Hc. unfold MakeFirstUpperCase. case_bool_decide as Hlen.
  - destruct rest as [|c' rest]; [|simpl in Hlen; lia].
    unfold strings.ToUpper. simpl. by rewrite Hc.
  - unfold bytes.ToUpper, bytes.Join. simpl. rewrite Hc. simpl.
    change (String (strings.upper_byte c) (rest +:+ "") = String (strings.upper_byte c) rest).
    by rewrite string_app_empty.
Qed.

(** X17: when the first byte is a lower-case ASCII letter it is replaced
    by its capital, 32 below, and the rest of the string is kept byte for
    byte; with any other ASCII byte first the string is returned
    unchanged.  Both hold for a string of one byte and for a longer one. *)
Theorem MakeFirstUpperCase_first_byte
    (strings_Map_ToUpper bytes_Map_ToUpper : string → string)
    (c : ascii) (rest : string) :
  ((97 ≤ N_of_ascii c ≤ 122)%N →
     MakeFirstUpperCase strings_Map_ToUpper bytes_Map_ToUpper (String c rest)
     = String (ascii_of_N (N_of_ascii c - 32)) rest) ∧
  ((N_of_ascii c < 97 ∨ 122 < N_of_ascii c < 128)%N →
     MakeFirstUpperCase strings_Map_ToUpper bytes_Map_ToUpper (String c rest)
     = String c rest).
Proof.
  split.
  - intros [Hlo Hhi]. rewrite MakeFirstUpperCase_cons.
    + unfold strings.upper_byte.
      by rewrite (proj2 (N.leb_le _ _) Hlo), (proj2 (N.leb_le _ _) Hhi).
    + unfold strings.isASCII_byte. apply N.ltb_lt. lia.
  - intros Hother. rewrite MakeFirstUpperCase_cons.
    + unfold strings.upper_byte.
      destruct (N.leb_spec 97 (N_of_ascii c)), (N.leb_spec (N_of_ascii c) 122);
        simpl; try done. lia.
    + unfold strings.isASCII_byte. apply N.ltb_lt. lia.
Qed.

Lemma MakeFirstUpperCase_first_byte_witness :
  MakeFirstUpperCase (λ s, s) (λ s, s) "element" = "Element" ∧
  MakeFirstUpperCase (λ s, s) (λ s, s) "_id" = "_id".
Proof.
  split.
  - apply (proj1 (MakeFirstUpperCase_first_byte (λ s, s) (λ s, s) "e" "lement")).
    vm_compute. split; discriminate.
  - apply (proj2 (MakeFirstUpperCase_first_byte (λ s, s) (λ s, s) "_" "id")).
    left. reflexivity.
Defined.

(** X18: on the empty string and on a string that starts with an ASCII
    byte, capitalising twice is capitalising once. *)
Theorem MakeFirstUpperCase_idempotent
    (strings_Map_ToUpper bytes_Map_ToUpper : string → string) (s : string) :
  starts_ASCII s →
  MakeFirstUpperCase strings_Map_ToUpper bytes_Map_ToUpper
    (MakeFirstUpperCase strings_Map_ToUpper bytes_Map_ToUpper s)
  = MakeFirstUpperCase strings_Map_ToUpper bytes_Map_ToUpper s.
Proof.
  destruct s as [|c rest]; simpl; [done|]. intros Hc.
  rewrite (MakeFirstUpperCase_cons _ _ c rest Hc).
  rewrite MakeFirstUpperCase_cons by by apply upper_byte_ASCII.
  by rewrite upper_byte_idempotent.
Qed.

Lemma MakeFirstUpperCase_idempotent_witness :
  MakeFirstUpperCase (λ s, s) (λ s, s) (MakeFirstUpperCase (λ s, s) (λ s, s) "xmlName")
  = MakeFirstUpperCase (λ s, s) (λ s, s) "xmlName".
Proof.
  apply (MakeFirstUpperCase_idempotent (λ s, s) (λ s, s) "xmlName"). reflexivity.
Defined.
